(** * caldav-reminder-telegram-bot: the scheduling engine of [src/app.py]

    A shallow embedding of the reminder extractor ([CaldavHandler]) and of
    the scheduler ([Worker]) together with the part of the asyncio event
    loop they rely on, followed by the properties of the specification.

    Conventions.
    - An aware [datetime] is the instant it denotes, a [Z] (seconds); a
      [timedelta] is a [Z] as well.
    - A Python object that is compared by identity carries its identity in a
      field ([va_oid], [ve_oid]).
    - A method that may raise returns a [result]; a method of [Worker] or
      [CaldavHandler] is a computation [M A] over the [World]: the
      attributes of the worker, the task table of the event loop, and the
      environment (wall clock, notification sink, log).  State changes made
      before an exception is raised stay in place, as in Python. *)

From Stdlib Require Import Ascii String ZArith Arith Bool List Sorted Permutation Lia.
Import ListNotations.
Open Scope Z_scope.

(* ================================================================== *)
(** ** Exceptions and results *)

Inductive exn : Type :=
| TypeError          (* unsupported [<] between objects; [x in None] *)
| UnboundLocalError  (* a local variable read before it was assigned *)
| DAVError           (* any error raised by the caldav client *)
| TelegramError.     (* any error raised by [bot.send_message] *)

Inductive result (A : Type) : Type :=
| Ok (a : A)
| Raise (e : exn).

Arguments Ok {A} a.
Arguments Raise {A} e.

Definition rbind {A B} (r : result A) (k : A -> result B) : result B :=
  match r with
  | Ok a => k a
  | Raise e => Raise e
  end.

(* ================================================================== *)
(** ** Rich comparison of Python objects

    [py_is a b] is [a is b]; [py_eq] is [a.__eq__(b)]; [py_lt] is
    [a < b], which raises [TypeError] when neither operand implements it.
    [rich_eq] is [PyObject_RichCompareBool(a, b, Py_EQ)], the test used
    inside tuple and list comparisons: identity first, then [__eq__]. *)

Class RichCmp (A : Type) : Type := {
  py_is : A -> A -> bool;
  py_eq : A -> A -> bool;
  py_lt : A -> A -> result bool
}.

Definition rich_eq {A} `{RichCmp A} (a b : A) : bool :=
  py_is a b || py_eq a b.

#[export] Instance datetime_cmp : RichCmp Z := {
  py_is := Z.eqb;
  py_eq := Z.eqb;
  py_lt := fun a b => Ok (a <? b)
}.

(* ================================================================== *)
(** ** Data model *)

(** [vevent.dtstart.value] as the calendar store delivers it. *)
Inductive DtValue : Type :=
| DDate  (days : Z)      (* a [date]: days since the epoch *)
| DNaive (wall : Z)      (* a [datetime] without tzinfo: wall-clock seconds *)
| DAware (instant : Z).  (* an aware [datetime] *)

(** A VALARM sub-component; [va_trigger] is [valarm.trigger.value]. *)
Record VAlarm : Type := {
  va_oid : nat;
  va_trigger : Z
}.

(** A VEVENT component; [ve_components] is [vevent.components()]. *)
Record VEvent : Type := {
  ve_oid : nat;
  ve_uid : string;
  ve_summary : string;
  ve_dtstart : DtValue;
  ve_components : list VAlarm
}.

(** [vobject.base.Component] defines neither [__eq__] nor [__lt__]: equality
    is the identity of [object], and [<] raises [TypeError]. *)
#[export] Instance valarm_cmp : RichCmp VAlarm := {
  py_is := fun a b => Nat.eqb (va_oid a) (va_oid b);
  py_eq := fun a b => Nat.eqb (va_oid a) (va_oid b);
  py_lt := fun _ _ => Raise TypeError
}.

#[export] Instance vevent_cmp : RichCmp VEvent := {
  py_is := fun a b => Nat.eqb (ve_oid a) (ve_oid b);
  py_eq := fun a b => Nat.eqb (ve_oid a) (ve_oid b);
  py_lt := fun _ _ => Raise TypeError
}.

(** [@dataclass(order=True) class Reminder] *)
Record Reminder : Type := {
  dt : Z;
  valarm : VAlarm;
  vevent : VEvent
}.

(** [@dataclass() class Event] *)
Record Event : Type := {
  ev_vevent : VEvent;
  reminders : list Reminder
}.

(** [caldav.objects.Calendar] *)
Record Calendar : Type := {
  cal_id : string;
  cal_name : string;
  cal_url : string
}.

(** [class Config].  The two numeric settings are held as the integers
    that [int(...)] makes of them at their use.  [TIMEZONE_localize] is
    [TIMEZONE.localize] read on instants: the instant at which the zone's
    wall clock shows the given naive value. *)
Record Config : Type := {
  CALENDAR_IDS : option (list string);
  SYNC_INTERVAL_IN_SEC : Z;
  FETCH_EVENT_WINDOW_IN_DAYS : Z;
  TIMEZONE_localize : Z -> Z
}.

(** [str.split(sep)] for a one-character separator. *)
Fixpoint split_on (sep : Ascii.ascii) (s : string) : list string :=
  match s with
  | EmptyString => [EmptyString]
  | String c s' =>
      if Ascii.eqb c sep then EmptyString :: split_on sep s'
      else match split_on sep s' with
           | [] => [String c EmptyString]
           | w :: ws => String c w :: ws
           end
  end.

(** Line 39: [CALENDAR_IDS.split(";") if CALENDAR_IDS else None] (an unset
    variable and the empty string are both falsy). *)
Definition Config_CALENDAR_IDS (env : option string) : option (list string) :=
  match env with
  | None => None
  | Some EmptyString => None
  | Some s => Some (split_on ";"%char s)
  end.

(* ------------------------------------------------------------------ *)
(** *** The comparisons [dataclass] generates for [Reminder] *)

Section ReminderOrder.
Context {cmpA : RichCmp VAlarm} {cmpE : RichCmp VEvent}.

(** [__eq__]: [(dt, valarm, vevent) == (dt', valarm', vevent')]. *)
Definition Reminder_eq (a b : Reminder) : bool :=
  rich_eq (dt a) (dt b) &&
  rich_eq (valarm a) (valarm b) &&
  rich_eq (vevent a) (vevent b).

(** [__lt__]: tuple comparison, which looks for the first field where the
    two tuples differ and applies [<] to that field only. *)
Definition Reminder_lt (a b : Reminder) : result bool :=
  if negb (rich_eq (dt a) (dt b)) then py_lt (dt a) (dt b)
  else if negb (rich_eq (valarm a) (valarm b))
       then py_lt (valarm a) (valarm b)
  else if negb (rich_eq (vevent a) (vevent b))
       then py_lt (vevent a) (vevent b)
  else Ok false.

(** [list.__eq__] on lists of reminders, and [!=]. *)
Fixpoint list_eq (l1 l2 : list Reminder) : bool :=
  match l1, l2 with
  | [], [] => true
  | a :: l1', b :: l2' => Reminder_eq a b && list_eq l1' l2'
  | _, _ => false
  end.

Definition list_ne (l1 l2 : list Reminder) : bool := negb (list_eq l1 l2).

(** [list.sort()]: a stable sort that only uses [<] and lets the
    exception of a comparison escape.  It is modelled by stable insertion:
    each element goes behind every element it is not smaller than. *)
Fixpoint insert (x : Reminder) (l : list Reminder) : result (list Reminder) :=
  match l with
  | [] => Ok [x]
  | y :: l' =>
      rbind (Reminder_lt x y) (fun b =>
        if b then Ok (x :: y :: l')
        else rbind (insert x l') (fun l'' => Ok (y :: l'')))
  end.

Fixpoint sort_into (acc : list Reminder) (l : list Reminder)
  : result (list Reminder) :=
  match l with
  | [] => Ok acc
  | x :: l' => rbind (insert x acc) (fun acc' => sort_into acc' l')
  end.

Definition list_sort (l : list Reminder) : result (list Reminder) :=
  sort_into [] l.
End ReminderOrder.

(* ================================================================== *)
(** ** The world: worker attributes, event loop, environment *)

(** What a task of the event loop runs once its deadline has elapsed
    ([run_at(dt, coro)]). *)
Inductive Handler : Type := HSync | HReminders.

Inductive TaskState : Type := Pending | Cancelled | Finished.

Record Task : Type := {
  tid : nat;
  deadline : Z;
  handler : Handler;
  tstate : TaskState
}.

(** The text handed to [bot.send_message]: the summary and the start of the
    event, which the source formats as
    [<b>Reminder</b>\r\n{summary}: {start:%d.%m.%Y %H:%M:%S}]. *)
Record Message : Type := {
  msg_summary : string;
  msg_dtstart : DtValue
}.

Inductive LogRecord : Type :=
| Info_Syncing
| Error_CannotFetchCalendars
| Error_CannotSyncCalendar
| Error_ExceptionOccured (e : exn)
| Info_SendingReminder (summary : string).

Record World : Type := {
  (* [Worker] *)
  sorted_reminders : list Reminder;
  reminder_task : option nat;
  cals : option (list Calendar);
  next_sync_dt : Z;      (* [self.next_sync_dt], assigned in [__init__] only *)
  (* event loop *)
  tasks : list Task;
  (* environment *)
  clock : nat -> Z;      (* successive readings of [datetime.now] *)
  reads : nat;           (* readings taken so far *)
  sink : nat -> bool;    (* does the n-th [send_message] succeed *)
  attempts : nat;        (* sends attempted so far *)
  outbox : list Message; (* messages delivered, latest first *)
  log : list LogRecord   (* latest first *)
}.

Definition set_sorted_reminders (q : list Reminder) (w : World) : World :=
  {| sorted_reminders := q; reminder_task := reminder_task w; cals := cals w;
     tasks := tasks w; clock := clock w; reads := reads w; sink := sink w; next_sync_dt := next_sync_dt w;
     attempts := attempts w; outbox := outbox w; log := log w |}.

Definition set_reminder_task (t : option nat) (w : World) : World :=
  {| sorted_reminders := sorted_reminders w; reminder_task := t; cals := cals w;
     tasks := tasks w; clock := clock w; reads := reads w; sink := sink w; next_sync_dt := next_sync_dt w;
     attempts := attempts w; outbox := outbox w; log := log w |}.

Definition set_cals (c : option (list Calendar)) (w : World) : World :=
  {| sorted_reminders := sorted_reminders w; reminder_task := reminder_task w;
     cals := c; tasks := tasks w; clock := clock w; reads := reads w;
     sink := sink w; next_sync_dt := next_sync_dt w; attempts := attempts w; outbox := outbox w; log := log w |}.

Definition set_tasks (ts : list Task) (w : World) : World :=
  {| sorted_reminders := sorted_reminders w; reminder_task := reminder_task w;
     cals := cals w; tasks := ts; clock := clock w; reads := reads w;
     sink := sink w; next_sync_dt := next_sync_dt w; attempts := attempts w; outbox := outbox w; log := log w |}.

Definition set_reads (n : nat) (w : World) : World :=
  {| sorted_reminders := sorted_reminders w; reminder_task := reminder_task w;
     cals := cals w; tasks := tasks w; clock := clock w; reads := n;
     sink := sink w; next_sync_dt := next_sync_dt w; attempts := attempts w; outbox := outbox w; log := log w |}.

Definition set_sent (n : nat) (o : list Message) (w : World) : World :=
  {| sorted_reminders := sorted_reminders w; reminder_task := reminder_task w;
     cals := cals w; tasks := tasks w; clock := clock w; reads := reads w;
     sink := sink w; next_sync_dt := next_sync_dt w; attempts := n; outbox := o; log := log w |}.

Definition set_log (l : list LogRecord) (w : World) : World :=
  {| sorted_reminders := sorted_reminders w; reminder_task := reminder_task w;
     cals := cals w; tasks := tasks w; clock := clock w; reads := reads w;
     sink := sink w; next_sync_dt := next_sync_dt w; attempts := attempts w; outbox := outbox w; log := l |}.

(** *** The state-and-exception monad *)

Definition M (A : Type) : Type := World -> World * result A.

Definition ret {A} (a : A) : M A := fun w => (w, Ok a).

Definition bind {A B} (m : M A) (k : A -> M B) : M B :=
  fun w =>
    match m w with
    | (w', Ok a) => k a w'
    | (w', Raise e) => (w', Raise e)
    end.

Definition raise {A} (e : exn) : M A := fun w => (w, Raise e).

Definition lift {A} (r : result A) : M A := fun w => (w, r).

Definition get : M World := fun w => (w, Ok w).

Definition modify (f : World -> World) : M unit := fun w => (f w, Ok tt).

Notation "x <- m ;; k" := (bind m (fun x => k))
  (at level 61, m at next level, right associativity).
Notation "m ;; k" := (bind m (fun _ => k))
  (at level 61, right associativity).

(** [datetime.now(tz=self.config.TIMEZONE)] *)
Definition datetime_now : M Z :=
  fun w => (set_reads (S (reads w)) w, Ok (clock w (reads w))).

Definition logging (r : LogRecord) : M unit :=
  modify (fun w => set_log (r :: log w) w).

(** [await bot.send_message(...)] *)
Definition send_message (m : Message) : M unit :=
  fun w =>
    if sink w (attempts w)
    then (set_sent (S (attempts w)) (m :: outbox w) w, Ok tt)
    else (set_sent (S (attempts w)) (outbox w) w, Raise TelegramError).

Definition try_except {A} (m : M A) (h : exn -> M A) : M A :=
  fun w =>
    match m w with
    | (w', Raise e) => h e w'
    | r => r
    end.

(* ================================================================== *)
(** ** The asyncio event loop *)

(** [loop.create_task(self.run_at(dt, coro))]: the new task sleeps until
    [dt] and then runs the handler.  The table keeps the deadline [dt]
    itself; the reading of the clock by which [run_at] turns it into a
    sleep belongs to the loop's timer. *)
Definition create_task (d : Z) (h : Handler) : M nat :=
  fun w =>
    let t := length (tasks w) in
    (set_tasks (tasks w ++ [{| tid := t; deadline := d; handler := h;
                              tstate := Pending |}]) w, Ok t).

Definition with_tstate (s : TaskState) (k : Task) : Task :=
  {| tid := tid k; deadline := deadline k; handler := handler k; tstate := s |}.

Definition is_pending (k : Task) : bool :=
  match tstate k with Pending => true | _ => false end.

(** [task.cancel()]: a sleeping task is cancelled ([run_at] swallows the
    [CancelledError]); on a task that is done it does nothing. *)
Definition cancel_in (t : nat) (k : Task) : Task :=
  if Nat.eqb (tid k) t && is_pending k then with_tstate Cancelled k else k.

Definition cancel (t : nat) : M unit :=
  modify (fun w => set_tasks (map (cancel_in t) (tasks w)) w).

(** The sleep of task [t] is over: it leaves the pending state and its
    handler starts. *)
Definition finish_in (t : nat) (k : Task) : Task :=
  if Nat.eqb (tid k) t then with_tstate Finished k else k.

Definition wake (t : nat) (w : World) : World :=
  set_tasks (map (finish_in t) (tasks w)) w.

(** A wake-timer is outstanding: a pending task that will run
    [process_reminders]. *)
Definition armed (k : Task) : bool :=
  match handler k, tstate k with
  | HReminders, Pending => true
  | _, _ => false
  end.

Definition scheduled_sync (k : Task) : bool :=
  match handler k, tstate k with
  | HSync, Pending => true
  | _, _ => false
  end.

Definition timers (w : World) : list Task := filter armed (tasks w).

Definition sync_tasks (w : World) : list Task := filter scheduled_sync (tasks w).

(* ================================================================== *)
(** ** [class CaldavHandler] *)

(** What the calendar store answers during one sync cycle. *)
Record Gateway : Type := {
  principal : bool;                                (* [self.principal is not None] *)
  principal_calendars : result (list Calendar);    (* [self.principal.calendars()] *)
  calendar_search : string -> Z -> Z -> result (list VEvent)
    (* [dav_client.calendar(url).search(event=True, expand=True, start, end)] *)
}.

Section Program.
Context {cmpA : RichCmp VAlarm} {cmpE : RichCmp VEvent}.
Variable config : Config.

Definition fetch_calendars (gw : Gateway) : M (option (list Calendar)) :=
  if negb (principal gw)
  then logging Error_CannotFetchCalendars ;; ret None
  else calendars <- lift (principal_calendars gw) ;; ret (Some calendars).

(** Lines 130-139: a [date] becomes midnight, a naive value is localized,
    and the result is stored back into the vevent as an aware datetime. *)
Definition normalize_dtstart (v : DtValue) : Z :=
  match v with
  | DDate d => TIMEZONE_localize config (d * 86400)
  | DNaive t => TIMEZONE_localize config t
  | DAware i => i
  end.

Definition with_dtstart (i : Z) (v : VEvent) : VEvent :=
  {| ve_oid := ve_oid v; ve_uid := ve_uid v; ve_summary := ve_summary v;
     ve_dtstart := DAware i; ve_components := ve_components v |}.

(** Lines 129-146, the body of [for event in events]. *)
Definition make_event (raw : VEvent) : Event :=
  let dtstart := normalize_dtstart (ve_dtstart raw) in
  let vevent := with_dtstart dtstart raw in
  {| ev_vevent := vevent;
     reminders :=
       map (fun valarm =>
              {| dt := dtstart + va_trigger valarm;
                 valarm := valarm; vevent := vevent |})
           (ve_components vevent) |}.

Fixpoint fetch_events_loop (gw : Gateway) (calendars : list Calendar)
    (eventsData : list Event) : M (list Event) :=
  match calendars with
  | [] => ret eventsData
  | item :: calendars' =>
      start <- datetime_now ;;
      now <- datetime_now ;;
      events <- lift (calendar_search gw (cal_url item) start
                        (now + 86400 * FETCH_EVENT_WINDOW_IN_DAYS config)) ;;
      fetch_events_loop gw calendars' (eventsData ++ map make_event events)
  end.

Definition fetch_events (gw : Gateway) (calendars : list Calendar)
  : M (list Event) :=
  fetch_events_loop gw calendars [].

(** Lines 163-167. *)
Fixpoint extract_event (rs : list Reminder) (acc : list Reminder)
  : M (list Reminder) :=
  match rs with
  | [] => ret acc
  | reminder :: rs' =>
      now <- datetime_now ;;
      extract_event rs' (if dt reminder >=? now then acc ++ [reminder] else acc)
  end.

Fixpoint extract_loop (events : list Event) (acc : list Reminder)
  : M (list Reminder) :=
  match events with
  | [] => ret acc
  | event :: events' =>
      acc' <- extract_event (reminders event) acc ;;
      extract_loop events' acc'
  end.

Definition extract_reminders (events : list Event) : M (list Reminder) :=
  collected <- extract_loop events [] ;;
  lift (list_sort collected).

(* ================================================================ *)
(** ** [class Worker] *)

Definition scheduleReminderTask : M unit :=
  w <- get ;;
  match reminder_task w with
  | Some t => cancel t
  | None => ret tt
  end ;;
  w <- get ;;
  match sorted_reminders w with
  | first :: _ =>
      t <- create_task (dt first) HReminders ;;
      modify (set_reminder_task (Some t))
  | [] => ret tt
  end.

(** [x.id in self.config.CALENDAR_IDS] *)
Definition id_in_CALENDAR_IDS (x : Calendar) : result bool :=
  match CALENDAR_IDS config with
  | None => Raise TypeError
  | Some ids => Ok (existsb (String.eqb (cal_id x)) ids)
  end.

(** [list(filter(lambda x: x.id in ..., self.cals))] *)
Fixpoint filter_subscribed (cs : list Calendar) : result (list Calendar) :=
  match cs with
  | [] => Ok []
  | x :: cs' =>
      rbind (id_in_CALENDAR_IDS x) (fun b =>
        rbind (filter_subscribed cs') (fun rest =>
          Ok (if b then x :: rest else rest)))
  end.

(** Lines 218-222: the calendar list the cycle goes on with, or [None]
    when the cycle returns early. *)
Definition ensure_cals (gw : Gateway) : M (option (list Calendar)) :=
  w <- get ;;
  match cals w with
  | None =>
      fetched <- fetch_calendars gw ;;
      modify (set_cals fetched) ;;
      match fetched with
      | None => logging Error_CannotSyncCalendar ;; ret None
      | Some cs => ret (Some cs)
      end
  | Some cs => ret (Some cs)
  end.

(** Lines 226-230. *)
Definition update_queue (events : list Event) : M unit :=
  match events with
  | [] => ret tt
  | _ :: _ =>
      sorted_reminders_new <- extract_reminders events ;;
      w <- get ;;
      if list_ne sorted_reminders_new (sorted_reminders w)
      then modify (set_sorted_reminders sorted_reminders_new) ;;
           scheduleReminderTask
      else ret tt
  end.

(** Lines 218-225: the events of this cycle, or [None] when the cycle
    returns early because no calendar list could be had. *)
Definition sync_fetch (gw : Gateway) : M (option (list Event)) :=
  known <- ensure_cals gw ;;
  match known with
  | None => ret None
  | Some cs =>
      cals_subscripted <- lift (filter_subscribed cs) ;;
      events <- fetch_events gw cals_subscripted ;;
      ret (Some events)
  end.

(** The [try] suite of [sync].  The value is the local variable
    [next_sync_dt] as the suite leaves it: [Some] once line 232 has run,
    [None] (unbound) after the early [return]. *)
Definition sync_try (gw : Gateway) : M (option Z) :=
  fetched <- sync_fetch gw ;;
  match fetched with
  | None => ret None
  | Some events =>
      update_queue events ;;
      now <- datetime_now ;;
      ret (Some (now + SYNC_INTERVAL_IN_SEC config))
  end.

(** [sync]: [try] / [except Exception] / [finally].  After an exception
    the handler logs and the local [next_sync_dt] is still unbound; the
    [finally] suite reads it. *)
Definition sync (gw : Gateway) : M unit :=
  logging Info_Syncing ;;
  local_next_sync_dt <-
    try_except (sync_try gw)
               (fun e => logging (Error_ExceptionOccured e) ;; ret None) ;;
  match local_next_sync_dt with
  | None => raise UnboundLocalError
  | Some d => create_task d HSync ;; ret tt
  end.

(** The arguments of [bot.send_message] at lines 259-260. *)
Definition reminder_message (reminder : Reminder) : Message :=
  {| msg_summary := ve_summary (vevent reminder);
     msg_dtstart := ve_dtstart (vevent reminder) |}.

Definition process_next_reminder : M bool :=
  w <- get ;;
  match sorted_reminders w with
  | reminder :: rest =>
      modify (set_sorted_reminders rest) ;;
      now <- datetime_now ;;
      if dt reminder <=? now then
        logging (Info_SendingReminder (ve_summary (vevent reminder))) ;;
        send_message (reminder_message reminder) ;;
        ret true
      else ret false
  | [] => ret false
  end.

(** [while await self.process_next_reminder(): pass].  The value says how
    the loop ended: [true] because the call returned [False], [false]
    because the fuel ran out. *)
Fixpoint while_process_next (fuel : nat) : M bool :=
  match fuel with
  | O => ret false
  | S fuel' =>
      again <- process_next_reminder ;;
      if again then while_process_next fuel' else ret true
  end.

(** No task holds a reference to the running drain, so no
    [CancelledError] reaches it and the [except] clause stays unused. *)
Definition process_reminders : M unit :=
  modify (set_reminder_task None) ;;
  w <- get ;;
  while_process_next (S (length (sorted_reminders w))) ;;
  scheduleReminderTask.

(** *** One turn of the event loop *)

Inductive step : World -> World -> Prop :=
| step_sync (gw : Gateway) (k : Task) (w : World) :
    In k (tasks w) -> scheduled_sync k = true ->
    step w (fst (sync gw (wake (tid k) w)))
| step_fire (k : Task) (w : World) :
    In k (tasks w) -> armed k = true ->
    step w (fst (process_reminders (wake (tid k) w))).

Inductive reachable (w0 : World) : World -> Prop :=
| reach_refl : reachable w0 w0
| reach_step w w' : reachable w0 w -> step w w' -> reachable w0 w'.
End Program.

(** [Worker.__init__] followed by [run]: nothing queued, no timer, no
    calendar list, and the first sync cycle waiting to start. *)
Definition initial_world (clk : nat -> Z) (snk : nat -> bool) : World :=
  {| sorted_reminders := []; reminder_task := None; cals := None;
     next_sync_dt := clk 0%nat;
     tasks := [{| tid := 0; deadline := clk 0%nat; handler := HSync;
                  tstate := Pending |}];
     clock := clk; reads := 1; sink := snk; attempts := 0; outbox := [];
     log := [] |}.

(* ================================================================== *)
(** * Properties *)

(** ** The order on reminders and [list.sort] *)

Definition fires_le (a b : Reminder) : Prop := dt a <= dt b.

(** Sorted non-decreasing by fire instant. *)
Definition sorted_by_dt (l : list Reminder) : Prop := StronglySorted fires_le l.

Lemma rbind_ok {A B} (r : result A) (k : A -> result B) (b : B) :
  rbind r k = Ok b -> exists a, r = Ok a /\ k a = Ok b.
Proof.
  destruct r as [a|e]; simpl; intros H; [exists a; auto | discriminate].
Qed.

Section SortFacts.
Context {cmpA : RichCmp VAlarm} {cmpE : RichCmp VEvent}.

Lemma Reminder_lt_distinct (a b : Reminder) :
  dt a <> dt b -> Reminder_lt a b = Ok (dt a <? dt b).
Proof.
  intros Hne. unfold Reminder_lt, rich_eq. simpl.
  rewrite orb_diag. apply Z.eqb_neq in Hne. rewrite Hne. reflexivity.
Qed.

Lemma Reminder_lt_true (a b : Reminder) :
  Reminder_lt a b = Ok true -> dt a <= dt b.
Proof.
  destruct (Z.eq_dec (dt a) (dt b)) as [E|N]; [lia|].
  rewrite (Reminder_lt_distinct a b N). intros H. injection H as H.
  apply Z.ltb_lt in H. lia.
Qed.

Lemma Reminder_lt_false (a b : Reminder) :
  Reminder_lt a b = Ok false -> dt b <= dt a.
Proof.
  destruct (Z.eq_dec (dt a) (dt b)) as [E|N]; [lia|].
  rewrite (Reminder_lt_distinct a b N). intros H. injection H as H.
  apply Z.ltb_ge in H. lia.
Qed.

Lemma insert_perm (x : Reminder) (l l' : list Reminder) :
  insert x l = Ok l' -> Permutation (x :: l) l'.
Proof.
  revert l'. induction l as [|y l IH]; simpl; intros l' H.
  - injection H as <-. apply Permutation_refl.
  - apply rbind_ok in H. destruct H as [b [_ H]]. destruct b.
    + injection H as <-. apply Permutation_refl.
    + apply rbind_ok in H. destruct H as [l'' [Hi H]]. injection H as <-.
      eapply perm_trans; [apply perm_swap|]. apply perm_skip. auto.
Qed.

Lemma insert_sorted (x : Reminder) (l l' : list Reminder) :
  sorted_by_dt l -> insert x l = Ok l' -> sorted_by_dt l'.
Proof.
  unfold sorted_by_dt. revert l'.
  induction l as [|y l IH]; simpl; intros l' Hs H.
  - injection H as <-. constructor; constructor.
  - apply rbind_ok in H. destruct H as [b [Hlt H]].
    inversion Hs as [|y' l0 Hs' Hall]; subst. destruct b.
    + injection H as <-. apply Reminder_lt_true in Hlt.
      constructor; [assumption|]. constructor; [exact Hlt|].
      eapply Forall_impl; [|exact Hall].
      intros z Hz. unfold fires_le in *. lia.
    + apply rbind_ok in H. destruct H as [l'' [Hi H]]. injection H as <-.
      apply Reminder_lt_false in Hlt. constructor; [eauto|].
      eapply Permutation_Forall; [apply (insert_perm _ _ _ Hi)|].
      constructor; assumption.
Qed.

Lemma sort_into_spec (l acc out : list Reminder) :
  sorted_by_dt acc -> sort_into acc l = Ok out ->
  sorted_by_dt out /\ Permutation (acc ++ l) out.
Proof.
  revert acc out. induction l as [|x l IH]; simpl; intros acc out Hs H.
  - injection H as <-. rewrite app_nil_r. split; [assumption|apply Permutation_refl].
  - apply rbind_ok in H. destruct H as [acc' [Hi H]].
    destruct (IH acc' out (insert_sorted x acc acc' Hs Hi) H) as [Hso Hp].
    split; [assumption|].
    eapply perm_trans; [|exact Hp].
    eapply perm_trans; [apply Permutation_sym, Permutation_middle|].
    exact (Permutation_app_tail l (insert_perm _ _ _ Hi)).
Qed.

(** When it returns, [list.sort] returns a permutation of its input that
    is sorted by fire instant, whatever order the components have. *)
Lemma list_sort_spec (l out : list Reminder) :
  list_sort l = Ok out -> sorted_by_dt out /\ Permutation l out.
Proof.
  intros H. apply (sort_into_spec l [] out); [constructor|exact H].
Qed.

(** Reminders with pairwise distinct fire instants are always sorted:
    only the [dt] fields get compared. *)
Lemma insert_distinct (x : Reminder) (l : list Reminder) :
  ~ In (dt x) (map dt l) -> exists l', insert x l = Ok l'.
Proof.
  induction l as [|y l IH]; simpl; intros Hn.
  - eauto.
  - rewrite Reminder_lt_distinct by intuition congruence. simpl.
    destruct (dt x <? dt y); [eauto|].
    destruct IH as [l' ->]; [tauto|]. simpl. eauto.
Qed.

Lemma sort_into_distinct (l acc : list Reminder) :
  NoDup (map dt (acc ++ l)) -> exists out, sort_into acc l = Ok out.
Proof.
  revert acc. induction l as [|x l IH]; simpl; intros acc Hnd.
  - eauto.
  - destruct (insert_distinct x acc) as [acc' Hi].
    { rewrite map_app in Hnd. simpl in Hnd.
      apply NoDup_remove_2 in Hnd. intros Hin. apply Hnd.
      apply in_or_app. left. exact Hin. }
    rewrite Hi. simpl. apply IH.
    eapply Permutation_NoDup; [|exact Hnd].
    apply Permutation_map.
    eapply perm_trans; [apply Permutation_sym, Permutation_middle|].
    exact (Permutation_app_tail l (insert_perm _ _ _ Hi)).
Qed.

Lemma list_sort_distinct (l : list Reminder) :
  NoDup (map dt l) -> exists out, list_sort l = Ok out.
Proof. intros H. apply (sort_into_distinct l []). exact H. Qed.
End SortFacts.

(** *** With vobject's components

    From here on the components compare as [vobject.base.Component] does:
    by identity, and not at all with [<]. *)

(** Two reminders hold the very same component objects. *)
Definition same_components (a b : Reminder) : bool :=
  Nat.eqb (va_oid (valarm a)) (va_oid (valarm b)) &&
  Nat.eqb (ve_oid (vevent a)) (ve_oid (vevent b)).

(** Equal fire instants on different objects: the pair [<] cannot order. *)
Definition clash (a b : Reminder) : bool :=
  (dt a =? dt b) && negb (same_components a b).

Fixpoint clashes (l : list Reminder) : bool :=
  match l with
  | [] => false
  | x :: l' => existsb (clash x) l' || clashes l'
  end.

Lemma Reminder_lt_vobject (a b : Reminder) :
  Reminder_lt a b =
  if negb (dt a =? dt b) then Ok (dt a <? dt b)
  else if same_components a b then Ok false else Raise TypeError.
Proof.
  unfold Reminder_lt, same_components, rich_eq. simpl.
  rewrite !orb_diag.
  destruct (dt a =? dt b); simpl; [|reflexivity].
  destruct (Nat.eqb (va_oid (valarm a)) (va_oid (valarm b))); simpl;
    [|reflexivity].
  destruct (Nat.eqb (ve_oid (vevent a)) (ve_oid (vevent b))); reflexivity.
Qed.

Lemma Reminder_eq_vobject (a b : Reminder) :
  Reminder_eq a b = (dt a =? dt b) && same_components a b.
Proof.
  unfold Reminder_eq, same_components, rich_eq. simpl.
  rewrite !orb_diag. rewrite andb_assoc. reflexivity.
Qed.

Lemma clash_sym (a b : Reminder) : clash a b = clash b a.
Proof.
  unfold clash, same_components.
  rewrite (Z.eqb_sym (dt a)), (Nat.eqb_sym (va_oid (valarm a))),
          (Nat.eqb_sym (ve_oid (vevent a))).
  reflexivity.
Qed.

Lemma Reminder_lt_clash (a b : Reminder) :
  clash a b = true -> Reminder_lt a b = Raise TypeError.
Proof.
  rewrite Reminder_lt_vobject. unfold clash.
  intros H. apply andb_prop in H. destruct H as [H1 H2].
  rewrite H1. simpl. apply negb_true_iff in H2. rewrite H2. reflexivity.
Qed.

Lemma Reminder_lt_no_clash (a b : Reminder) :
  clash a b = false -> exists r, Reminder_lt a b = Ok r.
Proof.
  rewrite Reminder_lt_vobject. unfold clash.
  destruct (dt a =? dt b); simpl; [|eauto].
  destruct (same_components a b); simpl; [eauto|discriminate].
Qed.

Lemma insert_raises_TypeError (x : Reminder) (l : list Reminder) (e : exn) :
  insert x l = Raise e -> e = TypeError.
Proof.
  induction l as [|y l IH]; simpl; [discriminate|].
  rewrite Reminder_lt_vobject.
  destruct (negb (dt x =? dt y)); simpl.
  - destruct (dt x <? dt y); [discriminate|].
    destruct (insert x l); simpl; [discriminate|].
    intros H. injection H as <-. apply IH. reflexivity.
  - destruct (same_components x y); simpl.
    + destruct (insert x l); simpl; [discriminate|].
      intros H. injection H as <-. apply IH. reflexivity.
    + intros H. injection H as <-. reflexivity.
Qed.

Lemma insert_clash (x : Reminder) (l : list Reminder) :
  sorted_by_dt l -> existsb (clash x) l = true ->
  insert x l = Raise TypeError.
Proof.
  induction l as [|y l IH]; simpl; intros Hs Hc; [discriminate|].
  inversion Hs as [|y' l0 Hs' Hall]; subst.
  destruct (clash x y) eqn:Hxy.
  - rewrite (Reminder_lt_clash x y Hxy). reflexivity.
  - simpl in Hc. rewrite Reminder_lt_vobject.
    destruct (dt x =? dt y) eqn:Hd; simpl.
    + unfold clash in Hxy. rewrite Hd in Hxy. simpl in Hxy.
      apply negb_false_iff in Hxy. rewrite Hxy. simpl.
      rewrite (IH Hs' Hc). reflexivity.
    + destruct (dt x <? dt y) eqn:Hlt; simpl.
      * exfalso. apply existsb_exists in Hc. destruct Hc as [z [Hz Hcz]].
        rewrite Forall_forall in Hall. specialize (Hall z Hz).
        unfold fires_le in Hall. unfold clash in Hcz.
        apply andb_prop in Hcz. destruct Hcz as [Hcz _].
        apply Z.eqb_eq in Hcz. apply Z.ltb_lt in Hlt. lia.
      * rewrite (IH Hs' Hc). reflexivity.
Qed.

Lemma insert_no_clash (x : Reminder) (l : list Reminder) :
  existsb (clash x) l = false -> exists l', insert x l = Ok l'.
Proof.
  induction l as [|y l IH]; simpl; intros Hc; [eauto|].
  apply orb_false_elim in Hc. destruct Hc as [Hxy Hc].
  destruct (Reminder_lt_no_clash x y Hxy) as [r ->]. simpl.
  destruct r; [eauto|].
  destruct (IH Hc) as [l' ->]. simpl. eauto.
Qed.

Lemma existsb_clash_perm (x : Reminder) (l l' : list Reminder) :
  Permutation l l' -> existsb (clash x) l = existsb (clash x) l'.
Proof.
  intros Hp. apply eq_true_iff_eq. rewrite !existsb_exists.
  split; intros [z [Hz Hc]]; exists z; split; auto.
  - eapply Permutation_in; eauto.
  - eapply Permutation_in; [apply Permutation_sym|]; eauto.
Qed.

(** [clash_between acc l]: some element of [l] clashes with one of [acc]. *)
Definition clash_between (acc l : list Reminder) : bool :=
  existsb (fun x => existsb (clash x) acc) l.

Lemma sort_into_clash (l acc : list Reminder) :
  sorted_by_dt acc -> clash_between acc l || clashes l = true ->
  sort_into acc l = Raise TypeError.
Proof.
  revert acc. induction l as [|x l IH]; intros acc Hs Hc.
  - discriminate.
  - simpl. destruct (insert x acc) as [acc'|e] eqn:Hi; simpl.
    + apply IH; [eapply insert_sorted; eauto|].
      pose proof (insert_perm _ _ _ Hi) as Hp.
      destruct (existsb (clash x) acc) eqn:Hxa.
      { rewrite (insert_clash x acc Hs Hxa) in Hi. discriminate. }
      unfold clash_between in *. simpl in Hc. rewrite Hxa in Hc. simpl in Hc.
      apply orb_true_iff. apply orb_true_iff in Hc.
      destruct Hc as [Hc|Hc].
      * left. apply existsb_exists in Hc. destruct Hc as [z [Hz Hc]].
        apply existsb_exists. exists z. split; [assumption|].
        rewrite <- (existsb_clash_perm z _ _ Hp). simpl.
        rewrite Hc. apply orb_true_r.
      * apply orb_true_iff in Hc. destruct Hc as [Hc|Hc]; [|right; exact Hc].
        left. apply existsb_exists in Hc. destruct Hc as [z [Hz Hc]].
        apply existsb_exists. exists z. split; [assumption|].
        rewrite <- (existsb_clash_perm z _ _ Hp). simpl.
        rewrite clash_sym, Hc. reflexivity.
    + rewrite (insert_raises_TypeError _ _ _ Hi). reflexivity.
Qed.

Lemma sort_into_no_clash (l acc : list Reminder) :
  clash_between acc l || clashes l = false ->
  exists out, sort_into acc l = Ok out.
Proof.
  revert acc. induction l as [|x l IH]; intros acc Hc.
  - simpl. eauto.
  - unfold clash_between in Hc. simpl in Hc.
    apply orb_false_elim in Hc. destruct Hc as [Hc1 Hc2].
    apply orb_false_elim in Hc1. destruct Hc1 as [Hxa Hla].
    apply orb_false_elim in Hc2. destruct Hc2 as [Hxl Hll].
    destruct (insert_no_clash x acc Hxa) as [acc' Hi].
    simpl. rewrite Hi. simpl. apply IH.
    pose proof (insert_perm _ _ _ Hi) as Hp.
    apply orb_false_intro; [|exact Hll].
    unfold clash_between.
    destruct (existsb (fun z => existsb (clash z) acc') l) eqn:E; [|reflexivity].
    exfalso. apply existsb_exists in E. destruct E as [z [Hz E]].
    rewrite <- (existsb_clash_perm z _ _ Hp) in E. simpl in E.
    apply orb_true_iff in E. destruct E as [E|E].
    + assert (existsb (clash x) l = true) as Hx.
      { apply existsb_exists. exists z. split; [assumption|].
        rewrite clash_sym. exact E. }
      congruence.
    + assert (existsb (fun x0 => existsb (clash x0) acc) l = true) as Hx.
      { apply existsb_exists. exists z. split; assumption. }
      congruence.
Qed.

(** [reminders.sort()] raises [TypeError] exactly when two reminders of the
    list have equal fire instants without being the same objects; this is
    so for every comparison sort, since such a pair must be compared. *)
Lemma list_sort_raises_iff (l : list Reminder) :
  list_sort l = Raise TypeError <-> clashes l = true.
Proof.
  unfold list_sort. split; intros H.
  - destruct (clashes l) eqn:E; [reflexivity|].
    destruct (sort_into_no_clash l []) as [out Ho].
    + unfold clash_between.
      rewrite E, orb_false_r.
      destruct (existsb _ l) eqn:E'; [|reflexivity].
      apply existsb_exists in E'. destruct E' as [z [_ Hz]]. discriminate.
    + congruence.
  - apply sort_into_clash; [constructor|]. rewrite H. apply orb_true_r.
Qed.

Lemma sort_into_raises_TypeError (l acc : list Reminder) (e : exn) :
  sort_into acc l = Raise e -> e = TypeError.
Proof.
  revert acc. induction l as [|x l IH]; simpl; intros acc Hs; [discriminate|].
  destruct (insert x acc) as [acc'|e'] eqn:Hi; simpl in Hs.
  - eauto.
  - injection Hs as <-. eapply insert_raises_TypeError; eauto.
Qed.

Lemma list_sort_returns_iff (l : list Reminder) :
  (exists out, list_sort l = Ok out) <-> clashes l = false.
Proof.
  split.
  - intros [out Ho]. destruct (clashes l) eqn:E; [|reflexivity].
    apply list_sort_raises_iff in E. congruence.
  - intros E. destruct (list_sort l) as [out|e] eqn:Hs; [eauto|].
    pose proof (sort_into_raises_TypeError _ _ _ Hs) as ->.
    apply list_sort_raises_iff in Hs. congruence.
Qed.

(* ================================================================== *)
(** ** The monad *)

Lemma bind_ok {A B} (m : M A) (k : A -> M B) (w w' : World) (a : A) :
  m w = (w', Ok a) -> bind m k w = k a w'.
Proof. intros H. unfold bind. rewrite H. reflexivity. Qed.

Lemma bind_raise {A B} (m : M A) (k : A -> M B) (w w' : World) (e : exn) :
  m w = (w', Raise e) -> bind m k w = (w', Raise e).
Proof. intros H. unfold bind. rewrite H. reflexivity. Qed.

Lemma set_reads_same (w : World) : set_reads (reads w) w = w.
Proof. destruct w; reflexivity. Qed.

(* ================================================================== *)
(** ** Reminder extraction *)

(** All reminders of the events, in the order the two loops visit them. *)
Definition candidates (events : list Event) : list Reminder :=
  flat_map reminders events.

(** The candidates that pass line 166 when the successive readings of the
    clock are [clk n], [clk (n+1)], ...: one reading per candidate. *)
Fixpoint surviving (clk : nat -> Z) (n : nat) (rs : list Reminder)
  : list Reminder :=
  match rs with
  | [] => []
  | r :: rs' =>
      if dt r >=? clk n then r :: surviving clk (S n) rs'
      else surviving clk (S n) rs'
  end.

Lemma surviving_app (clk : nat -> Z) (n : nat) (l1 l2 : list Reminder) :
  surviving clk n (l1 ++ l2) =
  surviving clk n l1 ++ surviving clk (n + length l1) l2.
Proof.
  revert n. induction l1 as [|r l1 IH]; simpl; intros n.
  - rewrite Nat.add_0_r. reflexivity.
  - rewrite IH. replace (S n + length l1)%nat with (n + S (length l1))%nat by lia.
    destruct (dt r >=? clk n); reflexivity.
Qed.

Lemma surviving_ext (c1 c2 : nat -> Z) (n1 n2 : nat) (rs : list Reminder) :
  (forall i, (i < length rs)%nat -> c1 (n1 + i)%nat = c2 (n2 + i)%nat) ->
  surviving c1 n1 rs = surviving c2 n2 rs.
Proof.
  revert n1 n2. induction rs as [|r rs IH]; simpl; intros n1 n2 H.
  - reflexivity.
  - pose proof (H 0%nat ltac:(lia)) as H0. rewrite !Nat.add_0_r in H0.
    rewrite H0. rewrite (IH (S n1) (S n2)).
    + reflexivity.
    + intros i Hi. specialize (H (S i) ltac:(lia)).
      replace (S n1 + i)%nat with (n1 + S i)%nat by lia.
      replace (S n2 + i)%nat with (n2 + S i)%nat by lia. exact H.
Qed.

Lemma surviving_incl (clk : nat -> Z) (n : nat) (rs : list Reminder) (r : Reminder) :
  In r (surviving clk n rs) -> In r rs.
Proof.
  revert n. induction rs as [|x rs IH]; simpl; intros n H; [assumption|].
  destruct (dt x >=? clk n); simpl in H; [destruct H|]; eauto.
Qed.

(** Under a clock that does not run backwards, a survivor fires no earlier
    than the first reading. *)
Lemma surviving_lower_bound (clk : nat -> Z) (n : nat) (rs : list Reminder) :
  (forall i j, (n <= i <= j)%nat -> clk i <= clk j) ->
  Forall (fun r => clk n <= dt r) (surviving clk n rs).
Proof.
  intros Hmono. assert (forall m, (n <= m)%nat ->
    Forall (fun r => clk n <= dt r) (surviving clk m rs)) as G.
  { induction rs as [|x rs IH]; simpl; intros m Hm; [constructor|].
    destruct (dt x >=? clk m) eqn:E.
    - constructor; [|apply IH; lia].
      apply Z.geb_le in E. specialize (Hmono n m ltac:(lia)). lia.
    - apply IH; lia. }
  apply G. lia.
Qed.

Section ExtractFacts.
Context {cmpA : RichCmp VAlarm} {cmpE : RichCmp VEvent}.

Lemma extract_event_spec (rs acc : list Reminder) (w : World) :
  extract_event rs acc w =
  (set_reads (reads w + length rs) w,
   Ok (acc ++ surviving (clock w) (reads w) rs)).
Proof.
  revert acc w. induction rs as [|r rs IH]; simpl; intros acc w.
  - rewrite Nat.add_0_r, set_reads_same, app_nil_r. reflexivity.
  - unfold bind, datetime_now. rewrite IH. simpl.
    replace (S (reads w + length rs))%nat
      with (reads w + S (length rs))%nat by lia.
    unfold set_reads at 1 2. simpl. f_equal. f_equal.
    destruct (dt r >=? clock w (reads w)); [|reflexivity].
    rewrite <- app_assoc. reflexivity.
Qed.

Lemma extract_loop_spec (events : list Event) (acc : list Reminder) (w : World) :
  extract_loop events acc w =
  (set_reads (reads w + length (candidates events)) w,
   Ok (acc ++ surviving (clock w) (reads w) (candidates events))).
Proof.
  revert acc w. induction events as [|ev events IH]; simpl; intros acc w.
  - rewrite Nat.add_0_r, set_reads_same, app_nil_r. reflexivity.
  - unfold bind. rewrite extract_event_spec, IH. simpl.
    rewrite length_app, surviving_app, <- app_assoc, Nat.add_assoc.
    reflexivity.
Qed.

(** [extract_reminders] reads the clock once per candidate, changes nothing
    else, and returns the sorted survivors. *)
Lemma extract_reminders_spec (events : list Event) (w : World) :
  extract_reminders events w =
  (set_reads (reads w + length (candidates events)) w,
   list_sort (surviving (clock w) (reads w) (candidates events))).
Proof.
  unfold extract_reminders, bind. rewrite extract_loop_spec. reflexivity.
Qed.

(** What a returned list looks like: sorted by fire instant, made of
    candidates only, none of them before the first reading. *)
Lemma extract_reminders_returns (events : list Event) (w w' : World)
    (out : list Reminder) :
  (forall i j, (reads w <= i <= j)%nat -> clock w i <= clock w j) ->
  extract_reminders events w = (w', Ok out) ->
  sorted_by_dt out /\
  Forall (fun r => clock w (reads w) <= dt r) out /\
  Forall (fun r => In r (candidates events)) out.
Proof.
  intros Hmono H. rewrite extract_reminders_spec in H.
  injection H as _ H. apply list_sort_spec in H. destruct H as [Hs Hp].
  split; [assumption|]. split.
  - eapply Permutation_Forall; [exact Hp|].
    apply surviving_lower_bound. exact Hmono.
  - eapply Permutation_Forall; [exact Hp|].
    apply Forall_forall. intros r Hr. eapply surviving_incl; eauto.
Qed.

(** Extraction returns whenever the surviving fire instants are pairwise
    distinct. *)
Lemma extract_reminders_total (events : list Event) (w : World) :
  NoDup (map dt (surviving (clock w) (reads w) (candidates events))) ->
  exists out, snd (extract_reminders events w) = Ok out.
Proof.
  intros H. rewrite extract_reminders_spec. simpl.
  apply list_sort_distinct. exact H.
Qed.
End ExtractFacts.

(** ** What [fetch_events] builds *)

Section FetchFacts.
Variable config : Config.

(** Lines 142-144: every reminder of an event fires at the normalized
    start of the event plus the trigger of its alarm, and refers to that
    event and to one of its alarms. *)
Lemma make_event_reminders (raw : VEvent) (r : Reminder) :
  In r (reminders (make_event config raw)) ->
  dt r = normalize_dtstart config (ve_dtstart raw) + va_trigger (valarm r) /\
  vevent r = ev_vevent (make_event config raw) /\
  In (valarm r) (ve_components raw).
Proof.
  unfold make_event. simpl. intros H. apply in_map_iff in H.
  destruct H as [a [<- Ha]]. simpl. auto.
Qed.

Definition built_by_fetch (e : Event) : Prop :=
  exists raw, e = make_event config raw.

Lemma fetch_events_loop_built (gw : Gateway) (cs : list Calendar)
    (acc out : list Event) (w w' : World) :
  Forall built_by_fetch acc ->
  fetch_events_loop config gw cs acc w = (w', Ok out) ->
  Forall built_by_fetch out.
Proof.
  revert acc w. induction cs as [|c cs IH]; simpl; intros acc w Hacc H.
  - injection H as _ <-. exact Hacc.
  - unfold bind, datetime_now, lift in H. simpl in H.
    destruct (calendar_search gw _ _ _) as [evs|e]; [|discriminate].
    eapply IH; [|exact H]. apply Forall_app. split; [exact Hacc|].
    apply Forall_forall. intros e He. apply in_map_iff in He.
    destruct He as [raw [<- _]]. exists raw. reflexivity.
Qed.

Lemma fetch_events_built (gw : Gateway) (cs : list Calendar)
    (out : list Event) (w w' : World) :
  fetch_events config gw cs w = (w', Ok out) -> Forall built_by_fetch out.
Proof. apply fetch_events_loop_built. constructor. Qed.
End FetchFacts.

(* ================================================================== *)
(** ** Frames: what a computation leaves alone *)

(** [preserves P m]: if [P] holds before [m], it holds after, also when [m]
    raises. *)
Definition preserves {A} (P : World -> Prop) (m : M A) : Prop :=
  forall w, P w -> P (fst (m w)).

Lemma preserves_bind {A B} (P : World -> Prop) (m : M A) (k : A -> M B) :
  preserves P m -> (forall a, preserves P (k a)) -> preserves P (bind m k).
Proof.
  intros Hm Hk w Hw. unfold bind. specialize (Hm w Hw).
  destruct (m w) as [w' [a|e]]; simpl in *; [apply Hk|]; assumption.
Qed.

Lemma preserves_bind_get {B} (P : World -> Prop) (k : World -> M B) :
  (forall w, P w -> P (fst (k w w))) -> preserves P (bind get k).
Proof. intros H w Hw. unfold bind, get. apply H. exact Hw. Qed.

Lemma preserves_ret {A} (P : World -> Prop) (a : A) : preserves P (ret a).
Proof. intros w Hw. exact Hw. Qed.

Lemma preserves_raise {A} (P : World -> Prop) (e : exn) :
  preserves P (@raise A e).
Proof. intros w Hw. exact Hw. Qed.

Lemma preserves_lift {A} (P : World -> Prop) (r : result A) :
  preserves P (lift r).
Proof. intros w Hw. exact Hw. Qed.

Lemma preserves_modify (P : World -> Prop) (f : World -> World) :
  (forall w, P w -> P (f w)) -> preserves P (modify f).
Proof. intros H w Hw. apply H. exact Hw. Qed.

Lemma preserves_try_except {A} (P : World -> Prop) (m : M A) (h : exn -> M A) :
  preserves P m -> (forall e, preserves P (h e)) -> preserves P (try_except m h).
Proof.
  intros Hm Hh w Hw. unfold try_except. specialize (Hm w Hw).
  destruct (m w) as [w' [a|e]]; simpl in *; [|apply Hh]; assumption.
Qed.

(** A property that only looks at fields the clock and the log are not. *)
Definition ignores_env (P : World -> Prop) : Prop :=
  (forall n w, P w -> P (set_reads n w)) /\
  (forall l w, P w -> P (set_log l w)).

Lemma preserves_datetime_now (P : World -> Prop) :
  ignores_env P -> preserves P datetime_now.
Proof. intros [H _] w Hw. apply H. exact Hw. Qed.

Lemma preserves_logging (P : World -> Prop) (r : LogRecord) :
  ignores_env P -> preserves P (logging r).
Proof. intros [_ H] w Hw. apply H. exact Hw. Qed.

Ltac frame_step :=
  match goal with
  | |- preserves _ (bind get _) => fail 1
  | |- preserves _ (bind _ _) => apply preserves_bind; [|intros ?]
  | |- preserves _ (ret _) => apply preserves_ret
  | |- preserves _ (raise _) => apply preserves_raise
  | |- preserves _ (lift _) => apply preserves_lift
  | |- preserves _ (try_except _ _) => apply preserves_try_except; [|intros ?]
  | |- preserves _ datetime_now => apply preserves_datetime_now; assumption
  | |- preserves _ (logging _) => apply preserves_logging; assumption
  | |- preserves _ (match ?x with _ => _ end) => destruct x
  end.

Ltac frame := repeat frame_step.

Section Frames.
Context {cmpA : RichCmp VAlarm} {cmpE : RichCmp VEvent}.
Variable config : Config.
Variable P : World -> Prop.
Hypothesis P_env : ignores_env P.

Lemma preserves_fetch_calendars (gw : Gateway) :
  preserves P (fetch_calendars gw).
Proof. unfold fetch_calendars. frame. Qed.

Lemma preserves_fetch_events (gw : Gateway) (cs : list Calendar) :
  preserves P (fetch_events config gw cs).
Proof.
  unfold fetch_events. generalize (@nil Event).
  induction cs as [|c cs IH]; simpl; intros acc; frame. apply IH.
Qed.

Lemma preserves_extract_reminders (events : list Event) :
  preserves P (extract_reminders events).
Proof.
  intros w Hw. rewrite extract_reminders_spec. simpl.
  apply P_env. exact Hw.
Qed.

Lemma preserves_process_next_reminder :
  (forall q w, P w -> P (set_sorted_reminders q w)) ->
  (forall n o w, P w -> P (set_sent n o w)) ->
  preserves P process_next_reminder.
Proof.
  intros Hq Hs. unfold process_next_reminder.
  apply preserves_bind_get. intros w Hw.
  destruct (sorted_reminders w) as [|r rest]; [exact Hw|].
  revert w Hw. change (preserves P
    (modify (set_sorted_reminders rest) ;;
     now <- datetime_now ;;
     (if dt r <=? now
      then logging (Info_SendingReminder (ve_summary (vevent r))) ;;
           send_message (reminder_message r) ;;
           ret true
      else ret false))).
  frame.
  - apply preserves_modify. intros w Hw. apply Hq. exact Hw.
  - intros w Hw. unfold send_message.
    destruct (sink w (attempts w)); simpl; apply Hs; exact Hw.
Qed.

Lemma preserves_while_process_next (fuel : nat) :
  (forall q w, P w -> P (set_sorted_reminders q w)) ->
  (forall n o w, P w -> P (set_sent n o w)) ->
  preserves P (while_process_next fuel).
Proof.
  intros Hq Hs. induction fuel as [|fuel IH]; simpl; frame.
  - apply preserves_process_next_reminder; assumption.
  - exact IH.
Qed.
End Frames.

(* ================================================================== *)
(** ** The sync cycle, case by case *)

Section SyncFacts.
Context {cmpA : RichCmp VAlarm} {cmpE : RichCmp VEvent}.
Variable config : Config.

(** The fetch phase of the cycle that starts in [w]: lines 216-225. *)
Definition cycle_fetch (gw : Gateway) (w : World)
  : World * result (option (list Event)) :=
  sync_fetch config gw (fst (logging Info_Syncing w)).

(** The [try] suite of the cycle that starts in [w]. *)
Definition cycle_try (gw : Gateway) (w : World) : World * result (option Z) :=
  sync_try config gw (fst (logging Info_Syncing w)).

Lemma scheduleReminderTask_returns (w : World) :
  snd (scheduleReminderTask w) = Ok tt.
Proof.
  unfold scheduleReminderTask, bind, get, cancel, modify, create_task, ret.
  destruct (reminder_task w); simpl;
    destruct (sorted_reminders w); reflexivity.
Qed.

Lemma update_queue_nil (w : World) : update_queue [] w = (w, Ok tt).
Proof. reflexivity. Qed.

Lemma update_queue_raise (events : list Event) (w w2 : World) (e : exn) :
  events <> [] ->
  extract_reminders events w = (w2, Raise e) ->
  update_queue events w = (w2, Raise e).
Proof.
  intros Hne H. destruct events as [|ev events]; [congruence|].
  unfold update_queue. apply bind_raise. exact H.
Qed.

Lemma update_queue_equal (events : list Event) (w w2 : World)
    (new : list Reminder) :
  events <> [] ->
  extract_reminders events w = (w2, Ok new) ->
  list_eq new (sorted_reminders w) = true ->
  update_queue events w = (w2, Ok tt).
Proof.
  intros Hne H Heq. destruct events as [|ev events]; [congruence|].
  unfold update_queue. rewrite (bind_ok _ _ _ _ _ H).
  unfold bind, get, list_ne.
  assert (sorted_reminders w2 = sorted_reminders w) as ->.
  { rewrite extract_reminders_spec in H. injection H as <- _. reflexivity. }
  rewrite Heq. reflexivity.
Qed.

Lemma update_queue_differ (events : list Event) (w w2 : World)
    (new : list Reminder) :
  events <> [] ->
  extract_reminders events w = (w2, Ok new) ->
  list_eq new (sorted_reminders w) = false ->
  update_queue events w = scheduleReminderTask (set_sorted_reminders new w2).
Proof.
  intros Hne H Heq. destruct events as [|ev events]; [congruence|].
  unfold update_queue. rewrite (bind_ok _ _ _ _ _ H).
  unfold bind at 1. unfold get, list_ne.
  assert (sorted_reminders w2 = sorted_reminders w) as ->.
  { rewrite extract_reminders_spec in H. injection H as <- _. reflexivity. }
  rewrite Heq. reflexivity.
Qed.

(** When [update_queue] raises, the exception comes from the extraction,
    and only clock readings were consumed. *)
Lemma update_queue_raise_frame (events : list Event) (w w2 : World) (e : exn) :
  update_queue events w = (w2, Raise e) ->
  exists n, w2 = set_reads n w.
Proof.
  destruct events as [|ev events]; [discriminate|].
  remember (ev :: events) as evs eqn:E.
  assert (evs <> []) as Hne by (subst; discriminate).
  pose proof (extract_reminders_spec evs w) as Hx.
  destruct (list_sort _) as [new|e'] eqn:Hs in Hx.
  - destruct (list_eq new (sorted_reminders w)) eqn:Heq.
    + rewrite (update_queue_equal _ _ _ _ Hne Hx Heq). discriminate.
    + rewrite (update_queue_differ _ _ _ _ Hne Hx Heq). intros H.
      pose proof (scheduleReminderTask_returns
                    (set_sorted_reminders new
                       (set_reads (reads w + length (candidates evs)) w))) as R.
      rewrite H in R. discriminate.
  - rewrite (update_queue_raise _ _ _ _ Hne Hx). intros H.
    injection H as <- _. eauto.
Qed.

(** *** The three ways the cycle can go on after the fetch phase *)

Lemma sync_fetch_raised (gw : Gateway) (w w1 : World) (e : exn) :
  cycle_fetch gw w = (w1, Raise e) ->
  sync config gw w =
  (set_log (Error_ExceptionOccured e :: log w1) w1, Raise UnboundLocalError).
Proof.
  unfold cycle_fetch. intros H.
  unfold sync. unfold bind at 1. simpl.
  unfold bind at 1. unfold try_except, sync_try.
  rewrite (bind_raise _ _ _ _ _ H). reflexivity.
Qed.

Lemma sync_returned_early (gw : Gateway) (w w1 : World) :
  cycle_fetch gw w = (w1, Ok None) ->
  sync config gw w = (w1, Raise UnboundLocalError).
Proof.
  unfold cycle_fetch. intros H.
  unfold sync. unfold bind at 1. simpl.
  unfold bind at 1. unfold try_except, sync_try.
  rewrite (bind_ok _ _ _ _ _ H). reflexivity.
Qed.

Lemma sync_update_raised (gw : Gateway) (w w1 w2 : World)
    (events : list Event) (e : exn) :
  cycle_fetch gw w = (w1, Ok (Some events)) ->
  update_queue events w1 = (w2, Raise e) ->
  sync config gw w =
  (set_log (Error_ExceptionOccured e :: log w2) w2, Raise UnboundLocalError).
Proof.
  unfold cycle_fetch. intros H Hu.
  unfold sync. unfold bind at 1. simpl.
  unfold bind at 1. unfold try_except, sync_try.
  rewrite (bind_ok _ _ _ _ _ H).
  rewrite (bind_raise _ _ _ _ _ Hu). reflexivity.
Qed.

(** The task the [finally] suite creates from the state [w2] in which
    line 232 reads the clock. *)
Definition next_sync_task (w2 : World) : Task :=
  {| tid := length (tasks w2);
     deadline := clock w2 (reads w2) + SYNC_INTERVAL_IN_SEC config;
     handler := HSync; tstate := Pending |}.

Lemma sync_completed (gw : Gateway) (w w1 w2 : World) (events : list Event) :
  cycle_fetch gw w = (w1, Ok (Some events)) ->
  update_queue events w1 = (w2, Ok tt) ->
  sync config gw w =
  (set_tasks (tasks w2 ++ [next_sync_task w2]) (set_reads (S (reads w2)) w2),
   Ok tt).
Proof.
  unfold cycle_fetch. intros H Hu.
  unfold sync. unfold bind at 1. simpl.
  unfold bind at 1. unfold try_except, sync_try.
  rewrite (bind_ok _ _ _ _ _ H).
  rewrite (bind_ok _ _ _ _ _ Hu). reflexivity.
Qed.

(** *** Frames of the fetch phase *)

Lemma preserves_sync_fetch (P : World -> Prop) (gw : Gateway) :
  ignores_env P ->
  (forall c w, P w -> P (set_cals c w)) ->
  preserves P (sync_fetch config gw).
Proof.
  intros Henv Hc. unfold sync_fetch. apply preserves_bind.
  - unfold ensure_cals. apply preserves_bind_get. intros w Hw.
    destruct (cals w); [exact Hw|].
    revert w Hw.
    change (preserves P
      (fetched <- fetch_calendars gw ;;
       modify (set_cals fetched) ;;
       match fetched with
       | None => logging Error_CannotSyncCalendar ;; ret None
       | Some cs => ret (Some cs)
       end)).
    frame.
    + apply preserves_fetch_calendars. exact Henv.
    + apply preserves_modify. intros; apply Hc; assumption.
  - intros known. frame. apply preserves_fetch_events. exact Henv.
Qed.

(** A cached calendar list is never replaced. *)
Lemma sync_fetch_keeps_cals (gw : Gateway) (w : World) (cs : list Calendar) :
  cals w = Some cs -> cals (fst (sync_fetch config gw w)) = Some cs.
Proof.
  intros Hc. unfold sync_fetch, ensure_cals.
  unfold bind at 1. unfold bind at 1. unfold get. rewrite Hc.
  unfold ret at 1.
  assert (preserves (fun w => cals w = Some cs)
            (cals_subscripted <- lift (filter_subscribed config cs) ;;
             events <- fetch_events config gw cals_subscripted ;;
             ret (Some events))) as Hp.
  { frame. apply preserves_fetch_events. split; intros; assumption. }
  apply Hp. exact Hc.
Qed.

(** The scheduler's own state: queue, timer handle, tasks, deliveries. *)
Definition scheduler_state (w : World)
  : list Reminder * option nat * list Task * nat * list Message :=
  (sorted_reminders w, reminder_task w, tasks w, attempts w, outbox w).

Lemma cycle_fetch_scheduler_state (gw : Gateway) (w : World) :
  scheduler_state (fst (cycle_fetch gw w)) = scheduler_state w.
Proof.
  unfold cycle_fetch.
  apply (preserves_sync_fetch (fun w' => scheduler_state w' = scheduler_state w)).
  - split; intros; assumption.
  - intros; assumption.
  - reflexivity.
Qed.
End SyncFacts.

(* ================================================================== *)
(** ** Concrete scenarios *)

Module Scenario.
Definition config : Config :=
  {| CALENDAR_IDS := Some ["work"%string];
     SYNC_INTERVAL_IN_SEC := 1800;
     FETCH_EVENT_WINDOW_IN_DAYS := 5;
     TIMEZONE_localize := fun wall => wall |}.

(** The configuration when the variable [CALENDAR_IDS] is not set. *)
Definition config_unset : Config :=
  {| CALENDAR_IDS := Config_CALENDAR_IDS None;
     SYNC_INTERVAL_IN_SEC := 1800;
     FETCH_EVENT_WINDOW_IN_DAYS := 5;
     TIMEZONE_localize := fun wall => wall |}.

Definition work : Calendar :=
  {| cal_id := "work"; cal_name := "Work"; cal_url := "/dav/work/" |}.

Definition alarm (oid : nat) (offset : Z) : VAlarm :=
  {| va_oid := oid; va_trigger := offset |}.

(** An event with one alarm; the alarm is object [oid + 1]. *)
Definition event (oid : nat) (summary : string) (start offset : Z) : VEvent :=
  {| ve_oid := oid; ve_uid := summary; ve_summary := summary;
     ve_dtstart := DAware start;
     ve_components := [alarm (S oid) offset] |}.

(** The reminder [fetch_events] builds for [event oid summary start offset]. *)
Definition reminder (oid : nat) (summary : string) (start offset : Z)
  : Reminder :=
  {| dt := start + offset; valarm := alarm (S oid) offset;
     vevent := event oid summary start offset |}.

Definition message (summary : string) (start : Z) : Message :=
  {| msg_summary := summary; msg_dtstart := DAware start |}.

(** A store that answers every search with [events]. *)
Definition store (events : result (list VEvent)) : Gateway :=
  {| principal := true;
     principal_calendars := Ok [work];
     calendar_search := fun _ _ _ => events |}.

(** A worker that already holds the calendar list and the queue [q], at a
    moment when every clock reading is [now] and every send succeeds. *)
Definition world (now : Z) (q : list Reminder) (sends : nat -> bool) : World :=
  {| sorted_reminders := q; reminder_task := None; cals := Some [work];
     next_sync_dt := 0;
     tasks := [{| tid := 0; deadline := 0; handler := HSync;
                  tstate := Finished |}];
     clock := fun _ => now; reads := 1; sink := sends; attempts := 0;
     outbox := []; log := [] |}.

(** [arm w]: the same world with the wake-timer armed for the head of
    the queue. *)
Definition arm (w : World) : World := fst (scheduleReminderTask w).

(** ... and the moment that timer fires. *)
Definition firing (w : World) : World := wake 1 (arm w).

Definition always (b : bool) : nat -> bool := fun _ => b.

(** Every send succeeds except the first. *)
Definition first_fails : nat -> bool := fun n => negb (Nat.eqb n 0).

(** Three reminders that fire at 1, 2 and 3. *)
Definition r1 : Reminder := reminder 10 "one" 1 0.
Definition r2 : Reminder := reminder 20 "two" 2 0.
Definition r3 : Reminder := reminder 30 "three" 3 0.

(** "Standup" at 09:00 with an alarm 15 minutes before; 08:30 is 30600. *)
Definition standup : VEvent := event 1 "Standup" 32400 (-900).
Definition standup_reminder : Reminder := reminder 1 "Standup" 32400 (-900).

(** Two events at 10:00, each with an alarm at the start. *)
Definition review : VEvent := event 40 "Review" 36000 0.
Definition lunch : VEvent := event 50 "Lunch" 36000 0.

(** A clock that shows 10 at the first reading and 11 afterwards. *)
Definition ticking : nat -> Z := fun n => if Nat.eqb n 0 then 10 else 11.

(** One event with two alarms, firing at 12 and at 10. *)
Definition two_alarms : Event :=
  make_event config
    {| ve_oid := 60; ve_uid := "u"; ve_summary := "Call";
       ve_dtstart := DAware 12;
       ve_components := [alarm 61 0; alarm 62 (-2)] |}.

Definition at_reading_0 (clk : nat -> Z) : World :=
  {| sorted_reminders := []; reminder_task := None; cals := Some [work];
     next_sync_dt := 0; tasks := []; clock := clk; reads := 0;
     sink := always true; attempts := 0; outbox := []; log := [] |}.
End Scenario.

(* ================================================================== *)
(** ** Claims about the sync cycle *)

Section SyncClaims.
Context {cmpA : RichCmp VAlarm} {cmpE : RichCmp VEvent}.
Variable config : Config.

Lemma timers_with_sync_task (ts : list Task) (w2 : World) :
  filter armed (ts ++ [next_sync_task config w2]) = filter armed ts.
Proof. rewrite filter_app. simpl. apply app_nil_r. Qed.

(** After a cycle whose [try] suite ran to its end without touching the
    queue, the scheduler's state is the old one plus the next sync task. *)
Lemma sync_quiet_cycle (gw : Gateway) (w w1 w2 : World) (events : list Event) :
  cycle_fetch config gw w = (w1, Ok (Some events)) ->
  update_queue events w1 = (w2, Ok tt) ->
  scheduler_state w2 = scheduler_state w1 ->
  cals w2 = cals w1 ->
  let w' := fst (sync config gw w) in
  snd (sync config gw w) = Ok tt /\
  sorted_reminders w' = sorted_reminders w /\
  reminder_task w' = reminder_task w /\
  tasks w' = tasks w ++ [next_sync_task config w2] /\
  timers w' = timers w /\
  attempts w' = attempts w /\ outbox w' = outbox w /\
  cals w' = cals w1.
Proof.
  intros Hf Hu Hs Hc. rewrite (sync_completed config gw w w1 w2 events Hf Hu).
  pose proof (cycle_fetch_scheduler_state config gw w) as Hw.
  rewrite Hf in Hw. simpl in Hw. rewrite <- Hs in Hw.
  unfold scheduler_state in Hw. injection Hw as Hq Ht Hts Ha Ho.
  simpl. unfold timers. simpl.
  rewrite timers_with_sync_task, Hts. auto 10.
Qed.

(** C10.  A cycle whose event fetch succeeds with an empty list leaves the
    queue, the timer handle, the outstanding wake-timers and the cached
    calendar list as they were: the calendar list is the one the fetch was
    made with, which is the cached one whenever there was one.  The empty
    list is not compared with the queue; the cycle ends normally. *)
Theorem sync_empty_fetch_keeps_queue (gw : Gateway) (w w1 : World) :
  cycle_fetch config gw w = (w1, Ok (Some [])) ->
  let w' := fst (sync config gw w) in
  snd (sync config gw w) = Ok tt /\
  sorted_reminders w' = sorted_reminders w /\
  reminder_task w' = reminder_task w /\
  timers w' = timers w /\
  cals w' = cals w1 /\
  (forall cs, cals w = Some cs -> cals w' = Some cs).
Proof.
  intros Hf.
  destruct (sync_quiet_cycle gw w w1 w1 [] Hf (update_queue_nil w1)
              eq_refl eq_refl) as (Hr & Hq & Ht & _ & Htm & _ & _ & Hc).
  repeat (split; [assumption|]).
  intros cs Hcs. cbv zeta in Hc. rewrite Hc.
  pose proof (sync_fetch_keeps_cals config gw
                (fst (logging Info_Syncing w)) cs Hcs) as K.
  unfold cycle_fetch in Hf. rewrite Hf in K. exact K.
Qed.

(** The branch of line 228 that skips the reschedule.  When the list a
    cycle extracts is equal ([==]) to the queue the worker holds, the queue
    and the timer handle stay as they are, no task is cancelled and the
    only task created is the next sync cycle, so the outstanding
    wake-timers are the same; a sync cycle sends nothing.  [==] is the
    equality of the components: with vobject's, two lists are equal only
    when they hold the same component objects, which a list parsed by the
    cycle does only when both are empty ([list_eq_parsed_anew] below). *)
Lemma sync_equal_list_keeps_timer (gw : Gateway) (w w1 w2 : World)
    (events : list Event) (new : list Reminder) :
  cycle_fetch config gw w = (w1, Ok (Some events)) ->
  events <> [] ->
  extract_reminders events w1 = (w2, Ok new) ->
  list_eq new (sorted_reminders w) = true ->
  let w' := fst (sync config gw w) in
  snd (sync config gw w) = Ok tt /\
  sorted_reminders w' = sorted_reminders w /\
  reminder_task w' = reminder_task w /\
  tasks w' = tasks w ++ [next_sync_task config w2] /\
  timers w' = timers w /\
  attempts w' = attempts w /\ outbox w' = outbox w.
Proof.
  intros Hf Hne Hx Heq.
  pose proof (cycle_fetch_scheduler_state config gw w) as Hw.
  rewrite Hf in Hw. simpl in Hw.
  assert (sorted_reminders w1 = sorted_reminders w) as Hq1
    by (unfold scheduler_state in Hw; congruence).
  rewrite <- Hq1 in Heq.
  pose proof (update_queue_equal events w1 w2 new Hne Hx Heq) as Hu.
  assert (w2 = set_reads (reads w1 + length (candidates events)) w1) as E.
  { rewrite extract_reminders_spec in Hx. congruence. }
  destruct (sync_quiet_cycle gw w w1 w2 events Hf Hu)
    as (Hr & Hq & Ht & Hts & Htm & Ha & Ho & _).
  - rewrite E. reflexivity.
  - rewrite E. reflexivity.
  - auto 10.
Qed.

Lemma sync_try_raise_cases (gw : Gateway) (w0 w1 : World) (e : exn) :
  sync_try config gw w0 = (w1, Raise e) ->
  sync_fetch config gw w0 = (w1, Raise e) \/
  exists w' events,
    sync_fetch config gw w0 = (w', Ok (Some events)) /\
    update_queue events w' = (w1, Raise e).
Proof.
  unfold sync_try. unfold bind at 1.
  destruct (sync_fetch config gw w0) as [w' [[events|]|e']].
  - unfold bind at 1.
    destruct (update_queue events w') as [w2 [[]|e2]] eqn:Hu.
    + unfold bind, datetime_now, ret. discriminate.
    + intros H. injection H as <- <-. right. eauto.
  - discriminate.
  - intros H. injection H as <- <-. left. reflexivity.
Qed.

(** C1.  When a step of the [try] suite raises, the handler logs the
    exception and the queue, the timer handle and the tasks are what they
    were; but the [finally] suite then finds [next_sync_dt] unbound:
    [sync] ends with [UnboundLocalError] and creates no task for the next
    cycle. *)
Theorem sync_exception_ends_cadence (gw : Gateway) (w w1 : World) (e : exn) :
  cycle_try config gw w = (w1, Raise e) ->
  let w' := fst (sync config gw w) in
  snd (sync config gw w) = Raise UnboundLocalError /\
  log w' = Error_ExceptionOccured e :: log w1 /\
  sorted_reminders w' = sorted_reminders w /\
  reminder_task w' = reminder_task w /\
  tasks w' = tasks w /\
  sync_tasks w' = sync_tasks w.
Proof.
  unfold cycle_try. intros H.
  pose proof (cycle_fetch_scheduler_state config gw w) as Hw.
  unfold cycle_fetch in Hw.
  assert (sync config gw w =
          (set_log (Error_ExceptionOccured e :: log w1) w1,
           Raise UnboundLocalError) /\
          scheduler_state w1 = scheduler_state w) as [-> Hs].
  { destruct (sync_try_raise_cases gw _ _ _ H)
      as [Hf | (w0 & events & Hf & Hu)].
    - split; [apply sync_fetch_raised; exact Hf|].
      rewrite Hf in Hw. exact Hw.
    - split; [eapply sync_update_raised; eauto|].
      rewrite Hf in Hw. simpl in Hw. rewrite <- Hw.
      destruct (update_queue_raise_frame _ _ _ _ Hu) as [n ->].
      reflexivity. }
  unfold scheduler_state in Hs. injection Hs as Hq Ht Hts _ _.
  simpl. unfold sync_tasks. simpl. rewrite Hts. auto 10.
Qed.

(** C9.  With [CALENDAR_IDS] unset the configuration holds [None], and a
    cycle that has a calendar to filter raises [TypeError] at the
    membership test: nothing is fetched, the handler logs the exception,
    the [finally] suite raises [UnboundLocalError] and the cycle leaves no
    task for the next one. *)
Theorem sync_without_calendar_ids (gw : Gateway) (w w1 : World)
    (c : Calendar) (cs : list Calendar) :
  CALENDAR_IDS config = Config_CALENDAR_IDS None ->
  ensure_cals gw (fst (logging Info_Syncing w)) = (w1, Ok (Some (c :: cs))) ->
  snd (sync config gw w) = Raise UnboundLocalError /\
  log (fst (sync config gw w)) = Error_ExceptionOccured TypeError :: log w1 /\
  sorted_reminders (fst (sync config gw w)) = sorted_reminders w /\
  tasks (fst (sync config gw w)) = tasks w.
Proof.
  intros Hn He.
  assert (cycle_fetch config gw w = (w1, Raise TypeError)) as Hf.
  { unfold cycle_fetch, sync_fetch. rewrite (bind_ok _ _ _ _ _ He).
    unfold bind, lift. simpl. unfold id_in_CALENDAR_IDS. rewrite Hn.
    reflexivity. }
  pose proof (cycle_fetch_scheduler_state config gw w) as Hw.
  rewrite Hf in Hw. unfold scheduler_state in Hw. simpl in Hw.
  injection Hw as Hq _ Hts _ _.
  rewrite (sync_fetch_raised config gw w _ _ Hf). simpl. auto.
Qed.

End SyncClaims.

(* ================================================================== *)
(** ** The dispatch drain *)

(** The head of the queue has been popped and the clock read. *)
Definition popped (rest : list Reminder) (w : World) : World :=
  set_reads (S (reads w)) (set_sorted_reminders rest w).

(** ... and the send was announced in the log and attempted. *)
Definition attempted (r : Reminder) (rest : list Reminder) (o : list Message)
    (w : World) : World :=
  set_sent (S (attempts w)) o
    (set_log (Info_SendingReminder (ve_summary (vevent r)) :: log w)
       (popped rest w)).

Lemma process_next_empty (w : World) :
  sorted_reminders w = [] -> process_next_reminder w = (w, Ok false).
Proof.
  intros Hq. unfold process_next_reminder, bind, get. rewrite Hq. reflexivity.
Qed.

Lemma process_next_future (w : World) (r : Reminder) (rest : list Reminder) :
  sorted_reminders w = r :: rest -> clock w (reads w) < dt r ->
  process_next_reminder w = (popped rest w, Ok false).
Proof.
  intros Hq Hlt. unfold process_next_reminder, bind, get. rewrite Hq. simpl.
  apply Z.leb_gt in Hlt. rewrite Hlt. reflexivity.
Qed.

Lemma process_next_sent (w : World) (r : Reminder) (rest : list Reminder) :
  sorted_reminders w = r :: rest -> dt r <= clock w (reads w) ->
  sink w (attempts w) = true ->
  process_next_reminder w =
  (attempted r rest (reminder_message r :: outbox w) w, Ok true).
Proof.
  intros Hq Hle Hs. unfold process_next_reminder, bind, get. rewrite Hq. simpl.
  apply Z.leb_le in Hle. rewrite Hle. simpl.
  unfold send_message. simpl. rewrite Hs. reflexivity.
Qed.

Lemma process_next_failed (w : World) (r : Reminder) (rest : list Reminder) :
  sorted_reminders w = r :: rest -> dt r <= clock w (reads w) ->
  sink w (attempts w) = false ->
  process_next_reminder w = (attempted r rest (outbox w) w, Raise TelegramError).
Proof.
  intros Hq Hle Hs. unfold process_next_reminder, bind, get. rewrite Hq. simpl.
  apply Z.leb_le in Hle. rewrite Hle. simpl.
  unfold send_message. simpl. rewrite Hs. reflexivity.
Qed.

(** The record line 257 writes before the send. *)
Definition sending_record (r : Reminder) : LogRecord :=
  Info_SendingReminder (ve_summary (vevent r)).

(** [r] is due at every reading of the clock from now on. *)
Definition due_from (w : World) (r : Reminder) : Prop :=
  forall j, (reads w <= j)%nat -> dt r <= clock w j.

(** The sends number [attempts w], ..., [attempts w + n - 1] succeed. *)
Definition sends_ok (w : World) (n : nat) : Prop :=
  forall i, (i < n)%nat -> sink w (attempts w + i) = true.

Lemma due_from_attempted (w : World) (r x : Reminder) (rest : list Reminder)
    (o : list Message) :
  due_from w x -> due_from (attempted r rest o w) x.
Proof. intros H j Hj. simpl in *. apply H. lia. Qed.

Lemma sends_ok_attempted (w : World) (r : Reminder) (rest : list Reminder)
    (o : list Message) (n : nat) :
  sends_ok w (S n) -> sends_ok (attempted r rest o w) n.
Proof.
  intros H i Hi. simpl. specialize (H (S i) ltac:(lia)).
  replace (S (attempts w + i))%nat with (attempts w + S i)%nat by lia. exact H.
Qed.

(** The loop over a queue that starts with the due reminders [due]: they
    are sent in order; then the loop pops one more element, the head of
    [rest], finds it not due, and stops. *)
Lemma while_drains_due (due : list Reminder) :
  forall (w : World) (fuel : nat) (rest : list Reminder),
  sorted_reminders w = due ++ rest ->
  (length due < fuel)%nat ->
  Forall (due_from w) due ->
  sends_ok w (length due) ->
  match rest with
  | [] => True
  | x :: _ => clock w (reads w + length due) < dt x
  end ->
  snd (while_process_next fuel w) = Ok true /\
  sorted_reminders (fst (while_process_next fuel w)) = tl rest /\
  outbox (fst (while_process_next fuel w)) =
    rev (map reminder_message due) ++ outbox w /\
  log (fst (while_process_next fuel w)) =
    rev (map sending_record due) ++ log w /\
  attempts (fst (while_process_next fuel w)) = (attempts w + length due)%nat.
Proof.
  induction due as [|r due IH]; intros w fuel rest Hq Hf Hdue Hs Hx.
  - destruct fuel as [|fuel]; [simpl in Hf; lia|]. simpl in *.
    rewrite Nat.add_0_r in *. destruct rest as [|x rest].
    + rewrite (bind_ok _ _ _ _ _ (process_next_empty w Hq)). simpl. auto.
    + rewrite (bind_ok _ _ _ _ _ (process_next_future w x rest Hq Hx)).
      simpl. auto.
  - destruct fuel as [|fuel]; [simpl in Hf; lia|].
    inversion Hdue as [|r' due' Hr Hdue']; subst.
    assert (sink w (attempts w) = true) as Hs0.
    { specialize (Hs 0%nat ltac:(simpl; lia)).
      rewrite Nat.add_0_r in Hs. exact Hs. }
    pose proof (process_next_sent w r (due ++ rest) Hq (Hr _ (le_n _)) Hs0)
      as Hstep.
    simpl. rewrite (bind_ok _ _ _ _ _ Hstep).
    set (w1 := attempted r (due ++ rest) (reminder_message r :: outbox w) w).
    destruct (IH w1 fuel rest) as (Hres & Hq' & Ho & Hl & Ha).
    + reflexivity.
    + simpl in Hf. lia.
    + eapply Forall_impl; [|exact Hdue'].
      intros x Hx'. apply due_from_attempted. exact Hx'.
    + apply sends_ok_attempted. exact Hs.
    + destruct rest as [|x rest]; [exact I|]. simpl in *.
      replace (S (reads w + length due))%nat
        with (reads w + S (length due))%nat by lia. exact Hx.
    + rewrite Hres, Hq', Ho, Hl, Ha. simpl.
      rewrite <- !app_assoc. simpl. repeat split; lia.
Qed.

(** The same loop when the send for the due reminder [r] fails: the
    exception ends the loop, [r] is gone, what was behind it stays. *)
Lemma while_stops_at_failure (pre : list Reminder) :
  forall (w : World) (fuel : nat) (r : Reminder) (post : list Reminder),
  sorted_reminders w = pre ++ r :: post ->
  (length pre < fuel)%nat ->
  Forall (due_from w) (pre ++ [r]) ->
  sends_ok w (length pre) ->
  sink w (attempts w + length pre) = false ->
  snd (while_process_next fuel w) = Raise TelegramError /\
  sorted_reminders (fst (while_process_next fuel w)) = post /\
  outbox (fst (while_process_next fuel w)) =
    rev (map reminder_message pre) ++ outbox w /\
  log (fst (while_process_next fuel w)) =
    rev (map sending_record (pre ++ [r])) ++ log w /\
  attempts (fst (while_process_next fuel w)) = S (attempts w + length pre).
Proof.
  induction pre as [|p pre IH]; intros w fuel r post Hq Hf Hdue Hs Hbad.
  - destruct fuel as [|fuel]; [simpl in Hf; lia|]. simpl in *.
    rewrite Nat.add_0_r in *. inversion Hdue as [|r' l' Hr _]; subst.
    rewrite (bind_raise _ _ _ _ _
               (process_next_failed w r post Hq (Hr _ (le_n _)) Hbad)).
    simpl. auto.
  - destruct fuel as [|fuel]; [simpl in Hf; lia|].
    simpl in Hdue. inversion Hdue as [|p' l' Hp Hdue']; subst.
    assert (sink w (attempts w) = true) as Hs0.
    { specialize (Hs 0%nat ltac:(simpl; lia)).
      rewrite Nat.add_0_r in Hs. exact Hs. }
    pose proof (process_next_sent w p (pre ++ r :: post) Hq
                  (Hp _ (le_n _)) Hs0) as Hstep.
    simpl. rewrite (bind_ok _ _ _ _ _ Hstep).
    set (w1 := attempted p (pre ++ r :: post)
                 (reminder_message p :: outbox w) w).
    destruct (IH w1 fuel r post) as (Hres & Hq' & Ho & Hl & Ha).
    + reflexivity.
    + simpl in Hf. lia.
    + eapply Forall_impl; [|exact Hdue'].
      intros x Hx'. apply due_from_attempted. exact Hx'.
    + apply sends_ok_attempted. exact Hs.
    + simpl in *.
      replace (S (attempts w + length pre))%nat
        with (attempts w + S (length pre))%nat by lia. exact Hbad.
    + rewrite Hres, Hq', Ho, Hl, Ha. simpl.
      rewrite <- !app_assoc. simpl. repeat split; lia.
Qed.

(** The loop ends by itself: each round that goes on has popped one
    element, so the fuel [process_reminders] provides is never used up. *)
Lemma process_next_true_pops (w w' : World) :
  process_next_reminder w = (w', Ok true) ->
  S (length (sorted_reminders w')) = length (sorted_reminders w).
Proof.
  unfold process_next_reminder, bind, get.
  destruct (sorted_reminders w) as [|r rest] eqn:Hq; [discriminate|]. simpl.
  destruct (dt r <=? clock w (reads w)); simpl; [|discriminate].
  unfold send_message. simpl. destruct (sink w (attempts w)); simpl;
    [|discriminate].
  intros H. injection H as <-. reflexivity.
Qed.

Lemma while_process_next_ends (fuel : nat) :
  forall w, (length (sorted_reminders w) < fuel)%nat ->
  snd (while_process_next fuel w) <> Ok false.
Proof.
  induction fuel as [|fuel IH]; intros w Hf; [lia|]. simpl.
  unfold bind. destruct (process_next_reminder w) as [w' [[]|e]] eqn:Hp.
  - apply IH. apply process_next_true_pops in Hp. lia.
  - simpl. discriminate.
  - simpl. discriminate.
Qed.

(** *** The reschedule procedure *)

Definition wake_timer (n : nat) (first : Reminder) : Task :=
  {| tid := n; deadline := dt first; handler := HReminders; tstate := Pending |}.

(** The tasks once the timer behind the handle, if any, is cancelled. *)
Definition tasks_after_cancel (w : World) : list Task :=
  match reminder_task w with
  | Some t => map (cancel_in t) (tasks w)
  | None => tasks w
  end.

Lemma set_tasks_same (w : World) : set_tasks (tasks w) w = w.
Proof. destruct w; reflexivity. Qed.

Lemma scheduleReminderTask_spec (w : World) :
  scheduleReminderTask w =
  match sorted_reminders w with
  | [] => (set_tasks (tasks_after_cancel w) w, Ok tt)
  | first :: _ =>
      (set_reminder_task (Some (length (tasks_after_cancel w)))
         (set_tasks (tasks_after_cancel w ++
                     [wake_timer (length (tasks_after_cancel w)) first]) w),
       Ok tt)
  end.
Proof.
  unfold scheduleReminderTask, tasks_after_cancel, bind, get.
  destruct (reminder_task w) as [t|]; simpl.
  - destruct (sorted_reminders w); reflexivity.
  - destruct (sorted_reminders w); [|reflexivity].
    rewrite set_tasks_same. reflexivity.
Qed.

Lemma process_reminders_unfold (w : World) :
  process_reminders w =
  (while_process_next (S (length (sorted_reminders w))) ;;
   scheduleReminderTask) (set_reminder_task None w).
Proof. reflexivity. Qed.

(** The loop touches neither the tasks nor the timer handle. *)
Lemma while_keeps_tasks (fuel : nat) (w : World) :
  tasks (fst (while_process_next fuel w)) = tasks w /\
  reminder_task (fst (while_process_next fuel w)) = reminder_task w.
Proof.
  apply (preserves_while_process_next
           (fun w' => tasks w' = tasks w /\ reminder_task w' = reminder_task w)).
  - split; intros; assumption.
  - intros; assumption.
  - intros; assumption.
  - auto.
Qed.

(** *** One run of [process_reminders] *)

(** C2.  A drain over a queue that starts with the due reminders [due],
    followed by a reminder [x] that is not due yet: the due reminders are
    sent in order, but the loop has popped [x] before it looked at its fire
    instant, so [x] leaves the queue without being sent, and the wake-timer
    is armed for the reminder behind [x] (for none when [x] was the last).
    With fire instants [t1 <= t2 < t3] and the clock at [t2], all three
    elements are removed and no timer is armed. *)
Theorem drain_drops_first_future_reminder (w : World) (due : list Reminder)
    (x : Reminder) (rest : list Reminder) :
  sorted_reminders w = due ++ x :: rest ->
  Forall (due_from w) due ->
  sends_ok w (length due) ->
  clock w (reads w + length due) < dt x ->
  snd (process_reminders w) = Ok tt /\
  outbox (fst (process_reminders w)) =
    rev (map reminder_message due) ++ outbox w /\
  sorted_reminders (fst (process_reminders w)) = rest /\
  tasks (fst (process_reminders w)) =
    match rest with
    | [] => tasks w
    | y :: _ => tasks w ++ [wake_timer (length (tasks w)) y]
    end /\
  reminder_task (fst (process_reminders w)) =
    match rest with
    | [] => None
    | _ :: _ => Some (length (tasks w))
    end.
Proof.
  intros Hq Hdue Hs Hx. rewrite process_reminders_unfold.
  set (w0 := set_reminder_task None w).
  set (fuel := S (length (sorted_reminders w))).
  destruct (while_drains_due due w0 fuel (x :: rest))
    as (Hres & Hq' & Ho & _ & _).
  - exact Hq.
  - unfold fuel. rewrite Hq, length_app. simpl. lia.
  - exact Hdue.
  - exact Hs.
  - exact Hx.
  - destruct (while_keeps_tasks fuel w0) as [Hts Hh].
    unfold bind. destruct (while_process_next fuel w0) as [w1 r].
    simpl in *. subst r. rewrite scheduleReminderTask_spec.
    unfold tasks_after_cancel. rewrite Hh, Hq', Hts.
    destruct rest as [|y rest]; simpl; rewrite ?Hts, ?Ho; auto.
Qed.



(** The statement of C3 for a drain that starts in [w] and whose send for
    [failed] fails: the failure is logged, every other due reminder of the
    queue is delivered, and a wake-timer is armed for what remains. *)
Definition dispatch_goes_on (w : World) (failed : Reminder) : Prop :=
  let w' := fst (process_reminders w) in
  (exists e, In (Error_ExceptionOccured e) (log w')) /\
  (forall r, In r (sorted_reminders w) -> due_from w r -> r <> failed ->
             In (reminder_message r) (outbox w')) /\
  ~ In failed (sorted_reminders w') /\
  (forall x, hd_error (sorted_reminders w') = Some x ->
             exists k, In k (timers w') /\ deadline k = dt x).

(* ================================================================== *)
(** ** At most one wake-timer *)

(** Task identifiers are the positions in the task table. *)
Definition tids_fresh (ts : list Task) : Prop :=
  map tid ts = seq 0 (length ts).

(** Every outstanding wake-timer is the one the worker holds the handle of. *)
Definition handle_tracks (ts : list Task) (h : option nat) : Prop :=
  forall k, In k ts -> armed k = true -> h = Some (tid k).

Definition single_flight (w : World) : Prop :=
  tids_fresh (tasks w) /\ handle_tracks (tasks w) (reminder_task w).

Definition disarmed (ts : list Task) : Prop :=
  forall k, In k ts -> armed k = false.

Lemma tids_fresh_map (f : Task -> Task) (ts : list Task) :
  (forall k, tid (f k) = tid k) -> tids_fresh ts -> tids_fresh (map f ts).
Proof.
  unfold tids_fresh. intros Hf H. rewrite map_map, length_map, <- H.
  apply map_ext. exact Hf.
Qed.

Lemma tids_fresh_snoc (ts : list Task) (k : Task) :
  tid k = length ts -> tids_fresh ts -> tids_fresh (ts ++ [k]).
Proof.
  unfold tids_fresh. intros Hk H.
  rewrite map_app, length_app, H. simpl. rewrite Hk, Nat.add_1_r, seq_S.
  reflexivity.
Qed.

Lemma tid_cancel_in (t : nat) (k : Task) : tid (cancel_in t k) = tid k.
Proof. unfold cancel_in. destruct (_ && _); reflexivity. Qed.

Lemma tid_finish_in (t : nat) (k : Task) : tid (finish_in t k) = tid k.
Proof. unfold finish_in. destruct (Nat.eqb _ _); reflexivity. Qed.

Lemma armed_cancel_in (t : nat) (k : Task) :
  armed (cancel_in t k) = armed k && negb (Nat.eqb (tid k) t).
Proof.
  destruct k as [i d h s]. unfold cancel_in, armed, is_pending. simpl.
  destruct (Nat.eqb i t), h, s; reflexivity.
Qed.

Lemma armed_finish_in (t : nat) (k : Task) :
  armed (finish_in t k) = armed k && negb (Nat.eqb (tid k) t).
Proof.
  destruct k as [i d h s]. unfold finish_in, armed. simpl.
  destruct (Nat.eqb i t), h, s; reflexivity.
Qed.

Lemma filter_disarmed (ts : list Task) : disarmed ts -> filter armed ts = [].
Proof.
  induction ts as [|k ts IH]; intros H; [reflexivity|]. simpl.
  rewrite (H k (or_introl eq_refl)). apply IH.
  intros k' Hk'. apply H. right. exact Hk'.
Qed.

(** Cancelling the task behind the handle leaves no timer outstanding. *)
Lemma disarmed_after_cancel (w : World) :
  handle_tracks (tasks w) (reminder_task w) -> disarmed (tasks_after_cancel w).
Proof.
  unfold tasks_after_cancel. intros H.
  destruct (reminder_task w) as [t|] eqn:Ht; intros k Hk.
  - apply in_map_iff in Hk. destruct Hk as [k0 [<- Hk0]].
    rewrite armed_cancel_in. destruct (armed k0) eqn:Ha; [|reflexivity].
    specialize (H k0 Hk0 Ha). injection H as ->.
    rewrite Nat.eqb_refl. reflexivity.
  - destruct (armed k) eqn:Ha; [|reflexivity].
    specialize (H k Hk Ha). discriminate.
Qed.

(** So does the firing of an outstanding timer. *)
Lemma disarmed_after_wake (w : World) (k : Task) :
  handle_tracks (tasks w) (reminder_task w) ->
  In k (tasks w) -> armed k = true ->
  disarmed (tasks (wake (tid k) w)).
Proof.
  intros H Hk Ha k' Hk'. simpl in Hk'.
  apply in_map_iff in Hk'. destruct Hk' as [k0 [<- Hk0]].
  rewrite armed_finish_in. destruct (armed k0) eqn:Ha0; [|reflexivity].
  pose proof (H k0 Hk0 Ha0) as E0. pose proof (H k Hk Ha) as E.
  rewrite E in E0. injection E0 as ->. rewrite Nat.eqb_refl. reflexivity.
Qed.

Lemma tids_fresh_after_cancel (w : World) :
  tids_fresh (tasks w) -> tids_fresh (tasks_after_cancel w).
Proof.
  unfold tasks_after_cancel. destruct (reminder_task w); [|auto].
  apply tids_fresh_map. apply tid_cancel_in.
Qed.

Lemma length_tasks_after_cancel (w : World) :
  length (tasks_after_cancel w) = length (tasks w).
Proof.
  unfold tasks_after_cancel. destruct (reminder_task w); [|reflexivity].
  apply length_map.
Qed.

Lemma handle_tracks_disarmed (ts : list Task) (h : option nat) :
  disarmed ts -> handle_tracks ts h.
Proof. intros H k Hk Ha. rewrite (H k Hk) in Ha. discriminate. Qed.

(** The timers the reschedule procedure leaves behind: none for an empty
    queue, else the one new timer for the head of the queue. *)
Lemma timers_after_schedule (w : World) :
  handle_tracks (tasks w) (reminder_task w) ->
  timers (fst (scheduleReminderTask w)) =
  match sorted_reminders w with
  | [] => []
  | first :: _ => [wake_timer (length (tasks w)) first]
  end.
Proof.
  intros H. rewrite scheduleReminderTask_spec.
  pose proof (filter_disarmed _ (disarmed_after_cancel w H)) as Hd.
  unfold timers. destruct (sorted_reminders w) as [|first q]; simpl.
  - exact Hd.
  - rewrite filter_app, Hd, length_tasks_after_cancel. reflexivity.
Qed.

Lemma schedule_single_flight (w : World) :
  single_flight w -> single_flight (fst (scheduleReminderTask w)).
Proof.
  intros [Hf Hh]. rewrite scheduleReminderTask_spec.
  pose proof (disarmed_after_cancel w Hh) as Hd.
  pose proof (tids_fresh_after_cancel w Hf) as Hf'.
  destruct (sorted_reminders w) as [|first q]; simpl; split; simpl.
  - exact Hf'.
  - apply handle_tracks_disarmed. exact Hd.
  - apply tids_fresh_snoc; [reflexivity|exact Hf'].
  - intros k Hk Ha. apply in_app_or in Hk. destruct Hk as [Hk|[<-|[]]].
    + rewrite (Hd k Hk) in Ha. discriminate.
    + reflexivity.
Qed.

Lemma single_flight_at_most_one (ts : list Task) (h : option nat) :
  NoDup (map tid ts) -> handle_tracks ts h ->
  (length (filter armed ts) <= 1)%nat.
Proof.
  induction ts as [|k ts IH]; simpl; intros Hnd Hh; [lia|].
  inversion Hnd as [|t l Hnotin Hnd']; subst.
  assert (handle_tracks ts h) as Hh'.
  { intros k' Hk' Ha'. apply Hh; [right|]; assumption. }
  destruct (armed k) eqn:Ha; [|apply IH; assumption].
  rewrite filter_disarmed; [simpl; lia|].
  intros k' Hk'. destruct (armed k') eqn:Ha'; [|reflexivity].
  exfalso. apply Hnotin.
  pose proof (Hh k (or_introl eq_refl) Ha) as E.
  pose proof (Hh' k' Hk' Ha') as E'. rewrite E in E'. injection E' as ->.
  apply in_map. exact Hk'.
Qed.

Lemma single_flight_timers (w : World) :
  single_flight w -> (length (timers w) <= 1)%nat.
Proof.
  intros [Hf Hh]. apply (single_flight_at_most_one _ (reminder_task w)).
  - rewrite Hf. apply seq_NoDup.
  - exact Hh.
Qed.

Lemma single_flight_env : ignores_env single_flight.
Proof. split; intros; assumption. Qed.

Lemma preserves_schedule : preserves single_flight scheduleReminderTask.
Proof. intros w Hw. apply schedule_single_flight. exact Hw. Qed.

Lemma preserves_create_sync_task (d : Z) :
  preserves single_flight (create_task d HSync).
Proof.
  intros w [Hf Hh]. split; simpl.
  - apply tids_fresh_snoc; [reflexivity|exact Hf].
  - intros k Hk Ha. apply in_app_or in Hk. destruct Hk as [Hk|[<-|[]]].
    + apply Hh; assumption.
    + discriminate.
Qed.

Lemma wake_single_flight (t : nat) (w : World) :
  single_flight w -> single_flight (wake t w).
Proof.
  intros [Hf Hh]. split; simpl.
  - apply tids_fresh_map; [apply tid_finish_in|exact Hf].
  - intros k Hk Ha. apply in_map_iff in Hk. destruct Hk as [k0 [<- Hk0]].
    rewrite tid_finish_in. rewrite armed_finish_in in Ha.
    apply andb_prop in Ha. apply Hh; tauto.
Qed.

Section SingleFlight.
Context {cmpA : RichCmp VAlarm} {cmpE : RichCmp VEvent}.
Variable config : Config.

Lemma preserves_update_queue (events : list Event) :
  preserves single_flight (update_queue events).
Proof.
  destruct events as [|ev events]; [apply preserves_ret|].
  unfold update_queue. apply preserves_bind.
  - apply preserves_extract_reminders. apply single_flight_env.
  - intros new. apply preserves_bind_get. intros w Hw.
    destruct (list_ne new (sorted_reminders w)); [|exact Hw].
    unfold bind, modify. apply schedule_single_flight. exact Hw.
Qed.

Lemma preserves_sync (gw : Gateway) : preserves single_flight (sync config gw).
Proof.
  pose proof single_flight_env as Henv.
  unfold sync, sync_try. frame.
  - apply preserves_sync_fetch; [exact Henv|]. intros; assumption.
  - apply preserves_update_queue.
  - apply preserves_create_sync_task.
Qed.

Lemma fire_single_flight (w : World) (k : Task) :
  single_flight w -> In k (tasks w) -> armed k = true ->
  single_flight (fst (process_reminders (wake (tid k) w))).
Proof.
  intros Hw Hk Ha. rewrite process_reminders_unfold.
  assert (single_flight (set_reminder_task None (wake (tid k) w))) as H0.
  { destruct Hw as [Hf Hh]. split.
    - apply (wake_single_flight (tid k) w). split; assumption.
    - apply handle_tracks_disarmed.
      apply (disarmed_after_wake w k Hh Hk Ha). }
  revert H0. generalize (set_reminder_task None (wake (tid k) w)).
  generalize (S (length (sorted_reminders (wake (tid k) w)))). intros fuel.
  change (preserves single_flight
            (while_process_next fuel ;; scheduleReminderTask)).
  apply preserves_bind.
  - apply preserves_while_process_next;
      [apply single_flight_env | intros; assumption | intros; assumption].
  - intros _. apply preserves_schedule.
Qed.

Lemma step_single_flight (w w' : World) :
  single_flight w -> step config w w' -> single_flight w'.
Proof.
  intros Hw Hs. destruct Hs as [gw k w Hk Hsync | k w Hk Ha].
  - apply preserves_sync. apply wake_single_flight. exact Hw.
  - apply fire_single_flight; assumption.
Qed.

Lemma reachable_single_flight (w0 w : World) :
  single_flight w0 -> reachable config w0 w -> single_flight w.
Proof.
  intros H0 Hr. induction Hr as [|w w' Hr IH Hs]; [exact H0|].
  eapply step_single_flight; eauto.
Qed.

Lemma initial_single_flight (clk : nat -> Z) (snk : nat -> bool) :
  single_flight (initial_world clk snk).
Proof.
  split; simpl.
  - reflexivity.
  - intros k [<-|[]] Ha. discriminate.
Qed.

(** C7.  In every state the worker reaches by sync cycles and timer
    firings, at most one wake-timer is outstanding.  Run in such a state,
    the reschedule procedure cancels every outstanding timer, and the
    timers outstanding afterwards are: the one new timer for the head of
    the queue when the queue is not empty, none when it is empty. *)
Theorem at_most_one_wake_timer (clk : nat -> Z) (snk : nat -> bool) (w : World) :
  reachable config (initial_world clk snk) w ->
  (length (timers w) <= 1)%nat /\
  (forall k, In k (timers w) ->
     In (with_tstate Cancelled k) (tasks (fst (scheduleReminderTask w)))) /\
  timers (fst (scheduleReminderTask w)) =
    match sorted_reminders w with
    | [] => []
    | first :: _ => [wake_timer (length (tasks w)) first]
    end.
Proof.
  intros Hr.
  pose proof (reachable_single_flight _ _ (initial_single_flight clk snk) Hr)
    as Hsf.
  split; [apply single_flight_timers; exact Hsf|].
  destruct Hsf as [Hf Hh]. split; [|apply timers_after_schedule; exact Hh].
  intros k Hk. unfold timers in Hk. apply filter_In in Hk.
  destruct Hk as [Hk Ha]. pose proof (Hh k Hk Ha) as Ht.
  assert (In (with_tstate Cancelled k) (tasks_after_cancel w)) as Hin.
  { unfold tasks_after_cancel. rewrite Ht. apply in_map_iff. exists k.
    split; [|exact Hk]. unfold cancel_in. rewrite Nat.eqb_refl.
    unfold armed in Ha. unfold is_pending.
    destruct (handler k); [discriminate|].
    destruct (tstate k); try discriminate. reflexivity. }
  rewrite scheduleReminderTask_spec.
  destruct (sorted_reminders w); simpl; [exact Hin|].
  apply in_or_app. left. exact Hin.
Qed.

(** *** Interleavings

    [process_reminders] is suspended while [bot.send_message] is awaited,
    and a sync cycle or the drain of another timer may run meanwhile.  The
    stretches of code that run without suspension are: a whole sync cycle,
    the start of a drain (line 242), one round of its loop, and the
    reschedule at its end.  The invariant holds after each stretch, in
    whatever order they run. *)
Inductive stretch : World -> World -> Prop :=
| stretch_sync (gw : Gateway) (k : Task) (w : World) :
    In k (tasks w) -> scheduled_sync k = true ->
    stretch w (fst (sync config gw (wake (tid k) w)))
| stretch_fire (k : Task) (w : World) :
    In k (tasks w) -> armed k = true ->
    stretch w (set_reminder_task None (wake (tid k) w))
| stretch_round (w : World) :
    stretch w (fst (process_next_reminder w))
| stretch_reschedule (w : World) :
    stretch w (fst (scheduleReminderTask w)).

Inductive interleaving (w0 : World) : World -> Prop :=
| inter_refl : interleaving w0 w0
| inter_step w w' : interleaving w0 w -> stretch w w' -> interleaving w0 w'.

Lemma stretch_single_flight (w w' : World) :
  single_flight w -> stretch w w' -> single_flight w'.
Proof.
  intros Hw Hs. destruct Hs as [gw k w Hk Hsync | k w Hk Ha | w | w].
  - apply preserves_sync. apply wake_single_flight. exact Hw.
  - destruct Hw as [Hf Hh]. split.
    + apply (wake_single_flight (tid k) w). split; assumption.
    + apply handle_tracks_disarmed.
      apply (disarmed_after_wake w k Hh Hk Ha).
  - revert Hw. apply preserves_process_next_reminder;
      [apply single_flight_env | intros; assumption | intros; assumption].
  - apply schedule_single_flight. exact Hw.
Qed.

End SingleFlight.

(* ================================================================== *)
(** ** A cycle that changes the queue *)

Section QueueReplaced.
Context {cmpA : RichCmp VAlarm} {cmpE : RichCmp VEvent}.
Variable config : Config.

(** A cycle whose extracted list differs from the queue puts the new list
    in its place. *)
Lemma sync_replaces_queue (gw : Gateway) (w w1 w2 : World)
    (events : list Event) (new : list Reminder) :
  cycle_fetch config gw w = (w1, Ok (Some events)) ->
  events <> [] ->
  extract_reminders events w1 = (w2, Ok new) ->
  list_eq new (sorted_reminders w) = false ->
  snd (sync config gw w) = Ok tt /\
  sorted_reminders (fst (sync config gw w)) = new.
Proof.
  intros Hf Hne Hx Heq.
  pose proof (cycle_fetch_scheduler_state config gw w) as Hw.
  rewrite Hf in Hw. simpl in Hw.
  assert (sorted_reminders w1 = sorted_reminders w) as Hq1
    by (unfold scheduler_state in Hw; congruence).
  rewrite <- Hq1 in Heq.
  pose proof (update_queue_differ events w1 w2 new Hne Hx Heq) as Hu.
  rewrite scheduleReminderTask_spec in Hu. simpl in Hu.
  destruct new as [|first new'].
  - rewrite (sync_completed config gw w w1 _ events Hf Hu). auto.
  - rewrite (sync_completed config gw w w1 _ events Hf Hu). auto.
Qed.
End QueueReplaced.

(* ================================================================== *)
(** ** Once a cycle has failed, no cycle follows *)

Definition no_sync_scheduled (w : World) : Prop :=
  forall k, In k (tasks w) -> scheduled_sync k = false.

Lemma scheduled_sync_cancel_in (t : nat) (k : Task) :
  scheduled_sync (cancel_in t k) = true -> scheduled_sync k = true.
Proof.
  destruct k as [i d h s]. unfold cancel_in, scheduled_sync, is_pending. simpl.
  destruct (Nat.eqb i t), h, s; simpl; auto.
Qed.

Lemma scheduled_sync_finish_in (t : nat) (k : Task) :
  scheduled_sync (finish_in t k) = true -> scheduled_sync k = true.
Proof.
  destruct k as [i d h s]. unfold finish_in, scheduled_sync. simpl.
  destruct (Nat.eqb i t), h, s; simpl; auto.
Qed.

Lemma no_sync_scheduled_map (f : Task -> Task) (w : World) :
  (forall k, scheduled_sync (f k) = true -> scheduled_sync k = true) ->
  no_sync_scheduled w -> no_sync_scheduled (set_tasks (map f (tasks w)) w).
Proof.
  intros Hf H k Hk. simpl in Hk. apply in_map_iff in Hk.
  destruct Hk as [k0 [<- Hk0]]. specialize (H k0 Hk0).
  destruct (scheduled_sync (f k0)) eqn:E; [|reflexivity].
  rewrite (Hf k0 E) in H. discriminate.
Qed.

Lemma preserves_no_sync_schedule :
  preserves no_sync_scheduled scheduleReminderTask.
Proof.
  intros w Hw. rewrite scheduleReminderTask_spec.
  assert (forall k, In k (tasks_after_cancel w) -> scheduled_sync k = false)
    as Hc.
  { unfold tasks_after_cancel. destruct (reminder_task w) as [t|]; [|exact Hw].
    apply (no_sync_scheduled_map (cancel_in t) w
             (scheduled_sync_cancel_in t) Hw). }
  destruct (sorted_reminders w) as [|first q]; simpl; [exact Hc|].
  intros k Hk. simpl in Hk. apply in_app_or in Hk.
  destruct Hk as [Hk|[<-|[]]]; [apply Hc; exact Hk|reflexivity].
Qed.

Section Cadence.
Context {cmpA : RichCmp VAlarm} {cmpE : RichCmp VEvent}.
Variable config : Config.

(** With no sync task pending, the only steps left are timer firings, and
    these create no sync task: no sync cycle ever runs again. *)
Lemma no_sync_scheduled_step (w w' : World) :
  no_sync_scheduled w -> step config w w' ->
  no_sync_scheduled w' /\
  exists k, In k (tasks w) /\ armed k = true /\
            w' = fst (process_reminders (wake (tid k) w)).
Proof.
  intros Hw Hs. destruct Hs as [gw k w Hk Hsync | k w Hk Ha].
  - rewrite (Hw k Hk) in Hsync. discriminate.
  - split; [|eauto].
    rewrite process_reminders_unfold.
    assert (no_sync_scheduled (set_reminder_task None (wake (tid k) w))) as H0.
    { apply (no_sync_scheduled_map (finish_in (tid k)) w
               (scheduled_sync_finish_in (tid k)) Hw). }
    revert H0. generalize (set_reminder_task None (wake (tid k) w)).
    generalize (S (length (sorted_reminders (wake (tid k) w)))). intros fuel.
    change (preserves no_sync_scheduled
              (while_process_next fuel ;; scheduleReminderTask)).
    apply preserves_bind.
    + apply preserves_while_process_next;
        [split; intros; assumption | intros; assumption | intros; assumption].
    + intros _. apply preserves_no_sync_schedule.
Qed.

Lemma cadence_never_resumes (w w' : World) :
  no_sync_scheduled w -> reachable config w w' -> no_sync_scheduled w'.
Proof.
  intros H0 Hr. induction Hr as [|w1 w2 Hr IH Hs]; [exact H0|].
  apply (no_sync_scheduled_step w1 w2 IH Hs).
Qed.
End Cadence.

(* ================================================================== *)
(** ** Claims about the extraction *)

Lemma clashes_app_r (l1 l2 : list Reminder) :
  clashes l2 = true -> clashes (l1 ++ l2) = true.
Proof.
  induction l1 as [|x l1 IH]; simpl; intros H; [exact H|].
  rewrite (IH H). apply orb_true_r.
Qed.

Lemma clashes_pair (l1 l2 l3 : list Reminder) (a b : Reminder) :
  dt a = dt b -> same_components a b = false ->
  clashes (l1 ++ a :: l2 ++ b :: l3) = true.
Proof.
  intros Hd Hc. apply clashes_app_r. simpl. apply orb_true_iff. left.
  apply existsb_exists. exists b. split.
  - apply in_or_app. right. left. reflexivity.
  - unfold clash. rewrite Hc. apply Z.eqb_eq in Hd. rewrite Hd. reflexivity.
Qed.

(** C5.  Two surviving reminders with equal fire instants that are not the
    same alarm of the same event make [reminders.sort()] compare their
    components, which raises [TypeError]: the extraction produces no list. *)
Theorem extract_tied_reminders_raises (events : list Event) (w : World)
    (l1 l2 l3 : list Reminder) (a b : Reminder) :
  surviving (clock w) (reads w) (candidates events) = l1 ++ a :: l2 ++ b :: l3 ->
  dt a = dt b ->
  same_components a b = false ->
  snd (extract_reminders events w) = Raise TypeError.
Proof.
  intros Hs Hd Hc. rewrite extract_reminders_spec. simpl.
  apply list_sort_raises_iff. rewrite Hs. apply clashes_pair; assumption.
Qed.

Section Determinism.
Context {cmpA : RichCmp VAlarm} {cmpE : RichCmp VEvent}.

(** The statement of C8: the result of the extraction is a function of the
    events and of the reading of the clock at its start. *)
Definition determined_by_start_reading : Prop :=
  forall (events : list Event) (w1 w2 : World),
    clock w1 (reads w1) = clock w2 (reads w2) ->
    snd (extract_reminders events w1) = snd (extract_reminders events w2).

(** C8 (as the code has it).  The extraction reads the clock once for each
    candidate reminder.  Its result is a function of the events and of
    these readings: two runs whose clocks agree on them return the same
    list or raise the same exception; and a run changes nothing in the
    world but the count of readings taken. *)
Theorem extract_reminders_deterministic (events : list Event) (w1 w2 : World) :
  (forall i, (i < length (candidates events))%nat ->
             clock w1 (reads w1 + i)%nat = clock w2 (reads w2 + i)%nat) ->
  snd (extract_reminders events w1) = snd (extract_reminders events w2) /\
  fst (extract_reminders events w1) =
    set_reads (reads w1 + length (candidates events)) w1.
Proof.
  intros H. rewrite !extract_reminders_spec. simpl.
  rewrite (surviving_ext (clock w1) (clock w2) (reads w1) (reads w2) _ H).
  auto.
Qed.
End Determinism.

(* ================================================================== *)
(** ** The claims on the scenarios *)

Lemma sync_empty_fetch_keeps_queue_witness :
  let gw := Scenario.store (Ok []) in
  let w := Scenario.arm
             (Scenario.world 30600 [Scenario.standup_reminder]
                (Scenario.always true)) in
  snd (sync Scenario.config gw w) = Ok tt /\
  sorted_reminders (fst (sync Scenario.config gw w)) = [Scenario.standup_reminder] /\
  timers (fst (sync Scenario.config gw w)) = timers w.
Proof.
  intros gw w.
  destruct (sync_empty_fetch_keeps_queue Scenario.config gw w
              (fst (cycle_fetch Scenario.config gw w)))
    as (Hr & Hq & _ & Ht & _).
  - vm_compute. reflexivity.
  - repeat split; assumption.
Defined.

(** At 08:30 the store holds one event, which started at 07:00: nothing is
    extracted, and the queue is empty as well. *)
Lemma sync_equal_list_keeps_timer_witness :
  let breakfast := Scenario.event 70 "Breakfast" 25200 0 in
  let gw := Scenario.store (Ok [breakfast]) in
  let w := Scenario.world 30600 [] (Scenario.always true) in
  sorted_reminders (fst (sync Scenario.config gw w)) = [] /\
  reminder_task (fst (sync Scenario.config gw w)) = None /\
  timers (fst (sync Scenario.config gw w)) = [] /\
  outbox (fst (sync Scenario.config gw w)) = [].
Proof.
  intros breakfast gw w.
  destruct (sync_equal_list_keeps_timer Scenario.config gw w
              (fst (cycle_fetch Scenario.config gw w))
              (fst (extract_reminders
                      [make_event Scenario.config breakfast]
                      (fst (cycle_fetch Scenario.config gw w))))
              [make_event Scenario.config breakfast]
              [])
    as (_ & Hq & Hh & _ & Ht & _ & Ho).
  - vm_compute. reflexivity.
  - discriminate.
  - vm_compute. reflexivity.
  - reflexivity.
  - repeat split; assumption.
Defined.

Lemma sync_exception_ends_cadence_witness :
  let gw := Scenario.store (Raise DAVError) in
  let w := Scenario.arm
             (Scenario.world 30600 [Scenario.standup_reminder]
                (Scenario.always true)) in
  snd (sync Scenario.config gw w) = Raise UnboundLocalError /\
  sorted_reminders (fst (sync Scenario.config gw w)) = [Scenario.standup_reminder] /\
  sync_tasks (fst (sync Scenario.config gw w)) = [].
Proof.
  intros gw w.
  destruct (sync_exception_ends_cadence Scenario.config gw w
              (fst (cycle_try Scenario.config gw w)) DAVError)
    as (Hr & _ & Hq & _ & _ & Hs).
  - vm_compute. reflexivity.
  - repeat split; assumption.
Defined.

Lemma sync_without_calendar_ids_witness :
  let gw := Scenario.store (Ok [Scenario.standup]) in
  let w := wake 0 (initial_world (fun _ => 30600) (Scenario.always true)) in
  snd (sync Scenario.config_unset gw w) = Raise UnboundLocalError /\
  log (fst (sync Scenario.config_unset gw w)) =
    [Error_ExceptionOccured TypeError; Info_Syncing] /\
  sync_tasks (fst (sync Scenario.config_unset gw w)) = [].
Proof.
  intros gw w.
  destruct (sync_without_calendar_ids Scenario.config_unset gw w
              (fst (ensure_cals gw (fst (logging Info_Syncing w))))
              Scenario.work [])
    as (Hr & Hl & _ & Ht).
  - reflexivity.
  - reflexivity.
  - unfold sync_tasks. rewrite Ht. repeat split; assumption.
Defined.

Lemma drain_drops_first_future_reminder_witness :
  let w := Scenario.firing
             (Scenario.world 2 [Scenario.r1; Scenario.r2; Scenario.r3]
                (Scenario.always true)) in
  outbox (fst (process_reminders w)) =
    [reminder_message Scenario.r2; reminder_message Scenario.r1] /\
  sorted_reminders (fst (process_reminders w)) = [] /\
  timers (fst (process_reminders w)) = [] /\
  reminder_task (fst (process_reminders w)) = None.
Proof.
  intros w.
  destruct (drain_drops_first_future_reminder w
              [Scenario.r1; Scenario.r2] Scenario.r3 [])
    as (_ & Ho & Hq & Ht & Hh).
  - reflexivity.
  - repeat constructor; intros j _; simpl; lia.
  - intros i _. reflexivity.
  - simpl. lia.
  - unfold timers. rewrite Ht. repeat split; assumption.
Defined.



Lemma at_most_one_wake_timer_witness :
  let gw := Scenario.store (Ok [Scenario.standup]) in
  let w0 := initial_world (fun _ => 30600) (Scenario.always true) in
  let w := fst (sync Scenario.config gw (wake 0 w0)) in
  (length (timers w) <= 1)%nat /\
  timers (fst (scheduleReminderTask w)) =
    [wake_timer 3 Scenario.standup_reminder].
Proof.
  intros gw w0 w.
  destruct (at_most_one_wake_timer Scenario.config (fun _ => 30600)
              (Scenario.always true) w) as (H1 & _ & H3).
  - apply (reach_step Scenario.config w0 w0 w (reach_refl _ _)).
    apply (step_sync Scenario.config gw
             {| tid := 0; deadline := 30600; handler := HSync;
                tstate := Pending |} w0).
    + left. reflexivity.
    + reflexivity.
  - split; [exact H1|exact H3].
Defined.

Lemma extract_tied_reminders_raises_witness :
  snd (extract_reminders
         [make_event Scenario.config Scenario.review;
          make_event Scenario.config Scenario.lunch]
         (Scenario.world 30600 [] (Scenario.always true))) = Raise TypeError.
Proof.
  apply (extract_tied_reminders_raises _ _ [] [] []
           (Scenario.reminder 40 "Review" 36000 0)
           (Scenario.reminder 50 "Lunch" 36000 0)).
  - reflexivity.
  - reflexivity.
  - reflexivity.
Defined.

(** C8 fails on the code: two runs that start at the same reading, 10, but
    whose clocks differ at the second reading keep different reminders. *)
Lemma extraction_depends_on_later_readings : ~ determined_by_start_reading.
Proof.
  intros H.
  specialize (H [Scenario.two_alarms]
                (Scenario.at_reading_0 (fun _ => 10))
                (Scenario.at_reading_0 Scenario.ticking) eq_refl).
  vm_compute in H. discriminate.
Qed.

Lemma extract_reminders_deterministic_witness :
  snd (extract_reminders [Scenario.two_alarms]
         (Scenario.at_reading_0 (fun _ => 10))) =
  snd (extract_reminders [Scenario.two_alarms]
         (Scenario.world 10 [Scenario.r1] (Scenario.always true))).
Proof.
  apply (extract_reminders_deterministic [Scenario.two_alarms]
           (Scenario.at_reading_0 (fun _ => 10))
           (Scenario.world 10 [Scenario.r1] (Scenario.always true))).
  intros i _. reflexivity.
Defined.

(** C6 on a failing input: the store holds two events at 10:00 with an
    alarm at the start of each.  [fetch_events] builds two reminders that
    both fire at 36000, and [extract_reminders] raises [TypeError]. *)
Theorem extract_same_instant_events_raises :
  let w := Scenario.world 30600 [] (Scenario.always true) in
  let gw := Scenario.store (Ok [Scenario.review; Scenario.lunch]) in
  exists w1 events,
    fetch_events Scenario.config gw [Scenario.work] w = (w1, Ok events) /\
    map dt (candidates events) = [36000; 36000] /\
    snd (extract_reminders events w1) = Raise TypeError.
Proof.
  intros w gw.
  exists (fst (fetch_events Scenario.config gw [Scenario.work] w)).
  exists [make_event Scenario.config Scenario.review;
          make_event Scenario.config Scenario.lunch].
  repeat split.
Qed.

(** The "Standup" scenario: extracted at 08:30, the event at 09:00 with an
    alarm 15 minutes before gives one reminder for 08:45; the drain at
    08:45:01 sends one message and leaves an empty queue and no timer. *)
Example standup_scenario :
  snd (extract_reminders [make_event Scenario.config Scenario.standup]
         (Scenario.world 30600 [] (Scenario.always true))) =
    Ok [Scenario.standup_reminder] /\
  dt Scenario.standup_reminder = 31500 /\
  let w := Scenario.firing
             (Scenario.world 31501 [Scenario.standup_reminder]
                (Scenario.always true)) in
  outbox (fst (process_reminders w)) = [Scenario.message "Standup" 32400] /\
  sorted_reminders (fst (process_reminders w)) = [] /\
  timers (fst (process_reminders w)) = [].
Proof. vm_compute. repeat split. Qed.

(* ================================================================== *)
(** * More of the program *)

(** ** [reminders.sort()] and the extraction, continued *)

(** X1.  [reminders.sort()] on vobject's components: when no two reminders
    of the list share a fire instant without being the same alarm of the
    same event, the sort returns the reminders, each once, in
    non-decreasing order of fire instant; otherwise it raises [TypeError]
    and nothing else. *)
Theorem sort_outcome (l : list Reminder) :
  (clashes l = false ->
   exists out, list_sort l = Ok out /\ sorted_by_dt out /\ Permutation l out) /\
  (clashes l = true -> list_sort l = Raise TypeError).
Proof.
  split; intros H.
  - destruct (proj2 (list_sort_returns_iff l) H) as [out Ho].
    exists out. split; [exact Ho|]. apply list_sort_spec. exact Ho.
  - apply list_sort_raises_iff. exact H.
Qed.

Section ExtractMore.
Context {cmpA : RichCmp VAlarm} {cmpE : RichCmp VEvent}.

Lemma surviving_constant (now : Z) (clk : nat -> Z) (n : nat) (rs : list Reminder) :
  (forall i, clk i = now) ->
  surviving clk n rs = filter (fun r => now <=? dt r) rs.
Proof.
  intros Hc. revert n. induction rs as [|r rs IH]; simpl; intros n.
  - reflexivity.
  - rewrite Hc, IH. rewrite Z.geb_leb. reflexivity.
Qed.

(** X2.  While the clock stands at [now], a list the extraction returns
    holds exactly the reminders of the events that fire at [now] or later
    (a reminder that fires at [now] itself is kept), each as often as the
    events hold it, sorted by fire instant. *)
Theorem extract_keeps_exactly_the_future (events : list Event) (w w' : World)
    (now : Z) (out : list Reminder) :
  (forall i, clock w i = now) ->
  extract_reminders events w = (w', Ok out) ->
  sorted_by_dt out /\
  Permutation (filter (fun r => now <=? dt r) (candidates events)) out /\
  (forall r, In r out <-> In r (candidates events) /\ now <= dt r).
Proof.
  intros Hc H. rewrite extract_reminders_spec in H. injection H as _ H.
  rewrite (surviving_constant now _ _ _ Hc) in H.
  apply list_sort_spec in H. destruct H as [Hs Hp].
  split; [exact Hs|]. split; [exact Hp|].
  intros r. split.
  - intros Hr. apply (Permutation_in _ (Permutation_sym Hp)) in Hr.
    apply filter_In in Hr. destruct Hr as [Hin Hle].
    apply Z.leb_le in Hle. auto.
  - intros [Hin Hle]. apply (Permutation_in _ Hp).
    apply filter_In. split; [exact Hin|]. apply Z.leb_le. exact Hle.
Qed.

(** X3.  Under a clock that does not run backwards, a list the extraction
    returns is sorted by fire instant, none of its reminders fires before
    the first reading of the clock, and it loses or adds nothing: it is a
    rearrangement of the candidates that passed the test of line 166. *)
Theorem extract_returns_sorted_survivors (events : list Event) (w w' : World)
    (out : list Reminder) :
  (forall i j, (reads w <= i <= j)%nat -> clock w i <= clock w j) ->
  extract_reminders events w = (w', Ok out) ->
  sorted_by_dt out /\
  Forall (fun r => clock w (reads w) <= dt r) out /\
  Permutation (surviving (clock w) (reads w) (candidates events)) out /\
  w' = set_reads (reads w + length (candidates events)) w.
Proof.
  intros Hmono H.
  destruct (extract_reminders_returns events w w' out Hmono H) as (Hs & Hf & _).
  rewrite extract_reminders_spec in H. injection H as Hw H.
  apply list_sort_spec in H. destruct H as [_ Hp]. auto.
Qed.

(** X4.  Whatever order and equality the components have, the extraction
    returns a list whenever the candidates that pass the time test fire at
    pairwise distinct instants: then only the [dt] fields are compared. *)
Theorem extract_returns_when_instants_differ (events : list Event) (w : World) :
  NoDup (map dt (surviving (clock w) (reads w) (candidates events))) ->
  exists out,
    extract_reminders events w =
      (set_reads (reads w + length (candidates events)) w, Ok out) /\
    sorted_by_dt out.
Proof.
  intros Hnd. rewrite extract_reminders_spec.
  destruct (list_sort_distinct _ Hnd) as [out Ho].
  exists out. rewrite Ho. split; [reflexivity|].
  apply list_sort_spec in Ho. tauto.
Qed.
End ExtractMore.

(* ================================================================== *)
(** ** [fetch_events], continued *)

Section FetchMore.
Variable config : Config.

Lemma set_reads_set_reads (n m : nat) (w : World) :
  set_reads n (set_reads m w) = set_reads n w.
Proof. reflexivity. Qed.

(** X5.  Every event [fetch_events] returns carries an aware start, and
    each of its reminders points back to the event, belongs to one of the
    event's alarms, and fires at the start plus the trigger of that alarm
    (before the start when the trigger is negative). *)
Theorem fetched_reminders_fire_at_start_plus_trigger (gw : Gateway)
    (cs : list Calendar) (w w' : World) (out : list Event) :
  fetch_events config gw cs w = (w', Ok out) ->
  Forall (fun e =>
    exists start,
      ve_dtstart (ev_vevent e) = DAware start /\
      Forall (fun r =>
        vevent r = ev_vevent e /\
        In (valarm r) (ve_components (ev_vevent e)) /\
        dt r = start + va_trigger (valarm r)) (reminders e)) out.
Proof.
  intros H. apply fetch_events_built in H.
  eapply Forall_impl; [|exact H].
  intros e [raw ->]. exists (normalize_dtstart config (ve_dtstart raw)).
  split; [reflexivity|]. apply Forall_forall. intros r Hr.
  destruct (make_event_reminders config raw r Hr) as (Hd & Hv & Ha).
  repeat split; assumption.
Qed.

(** One round of the loop of lines 114-146. *)
Lemma fetch_events_loop_cons (gw : Gateway) (c : Calendar) (cs : list Calendar)
    (acc : list Event) (w : World) :
  fetch_events_loop config gw (c :: cs) acc w =
  match calendar_search gw (cal_url c) (clock w (reads w))
          (clock w (S (reads w)) +
           86400 * FETCH_EVENT_WINDOW_IN_DAYS config) with
  | Ok evs =>
      fetch_events_loop config gw cs (acc ++ map (make_event config) evs)
        (set_reads (S (S (reads w))) w)
  | Raise e => (set_reads (S (S (reads w))) w, Raise e)
  end.
Proof.
  simpl. unfold bind, datetime_now, lift. simpl.
  destruct (calendar_search gw _ _ _); reflexivity.
Qed.

Lemma fetch_events_loop_ok (gw : Gateway) (reply : Calendar -> list VEvent)
    (cs : list Calendar) :
  forall (acc : list Event) (w : World),
  (forall c, In c cs ->
     forall s t, calendar_search gw (cal_url c) s t = Ok (reply c)) ->
  fetch_events_loop config gw cs acc w =
  (set_reads (reads w + 2 * length cs) w,
   Ok (acc ++ flat_map (fun c => map (make_event config) (reply c)) cs)).
Proof.
  induction cs as [|c cs IH]; intros acc w H.
  - simpl. rewrite Nat.add_0_r, set_reads_same, app_nil_r. reflexivity.
  - rewrite fetch_events_loop_cons, (H c (or_introl eq_refl)).
    rewrite IH by (intros c' Hc'; apply H; right; exact Hc').
    f_equal.
    + unfold set_reads. simpl. f_equal. lia.
    + simpl. rewrite <- app_assoc. reflexivity.
Qed.

(** X6.  When the search of every given calendar succeeds, [fetch_events]
    returns the events of all calendars, in the order of the calendars and,
    within a calendar, in the order the store gave them; the world only
    sees two more readings of the clock for each calendar. *)
Theorem fetch_events_concatenates (gw : Gateway) (reply : Calendar -> list VEvent)
    (cs : list Calendar) (w : World) :
  (forall c, In c cs ->
     forall s t, calendar_search gw (cal_url c) s t = Ok (reply c)) ->
  fetch_events config gw cs w =
  (set_reads (reads w + 2 * length cs) w,
   Ok (flat_map (fun c => map (make_event config) (reply c)) cs)).
Proof.
  intros H. unfold fetch_events.
  rewrite (fetch_events_loop_ok gw reply cs [] w H). reflexivity.
Qed.

Lemma fetch_events_loop_raise (gw : Gateway) (e : exn) (c : Calendar)
    (cs2 : list Calendar) (cs1 : list Calendar) :
  forall (acc : list Event) (w : World),
  (forall c', In c' cs1 ->
     forall s t, exists evs, calendar_search gw (cal_url c') s t = Ok evs) ->
  (forall s t, calendar_search gw (cal_url c) s t = Raise e) ->
  fetch_events_loop config gw (cs1 ++ c :: cs2) acc w =
  (set_reads (reads w + 2 * S (length cs1)) w, Raise e).
Proof.
  induction cs1 as [|c1 cs1 IH]; intros acc w Hok Hbad.
  - simpl app. rewrite fetch_events_loop_cons, Hbad.
    f_equal. unfold set_reads. simpl. f_equal. lia.
  - simpl app. rewrite fetch_events_loop_cons.
    match goal with
    | |- context [calendar_search gw (cal_url c1) ?s ?t] =>
        destruct (Hok c1 (or_introl eq_refl) s t) as [evs ->]
    end.
    rewrite IH; [|intros c' Hc'; apply Hok; right; exact Hc'|exact Hbad].
    f_equal. unfold set_reads. simpl. f_equal. lia.
Qed.

(** X7.  All or nothing: when the search of one calendar raises, the
    whole [fetch_events] raises that exception, the events already
    collected from the calendars before it are not returned, and the
    calendars behind it are not searched (no clock reading is taken for
    them). *)
Theorem fetch_events_fails_as_a_whole (gw : Gateway) (e : exn)
    (cs1 : list Calendar) (c : Calendar) (cs2 : list Calendar) (w : World) :
  (forall c', In c' cs1 ->
     forall s t, exists evs, calendar_search gw (cal_url c') s t = Ok evs) ->
  (forall s t, calendar_search gw (cal_url c) s t = Raise e) ->
  fetch_events config gw (cs1 ++ c :: cs2) w =
  (set_reads (reads w + 2 * S (length cs1)) w, Raise e).
Proof.
  intros Hok Hbad. unfold fetch_events.
  apply fetch_events_loop_raise; assumption.
Qed.

Lemma fetch_events_loop_windows (gw gw' : Gateway) (cs : list Calendar) :
  forall (acc : list Event) (w : World),
  (forall i c, nth_error cs i = Some c ->
     calendar_search gw (cal_url c)
       (clock w (reads w + 2 * i))
       (clock w (reads w + 2 * i + 1) +
        86400 * FETCH_EVENT_WINDOW_IN_DAYS config) =
     calendar_search gw' (cal_url c)
       (clock w (reads w + 2 * i))
       (clock w (reads w + 2 * i + 1) +
        86400 * FETCH_EVENT_WINDOW_IN_DAYS config)) ->
  fetch_events_loop config gw cs acc w = fetch_events_loop config gw' cs acc w.
Proof.
  induction cs as [|c cs IH]; intros acc w H; [reflexivity|].
  rewrite !fetch_events_loop_cons.
  pose proof (H 0%nat c eq_refl) as H0.
  replace (reads w + 2 * 0)%nat with (reads w) in H0 by lia.
  replace (reads w + 1)%nat with (S (reads w)) in H0 by lia.
  rewrite H0.
  destruct (calendar_search gw' _ _ _) as [evs|err]; [|reflexivity].
  apply IH. intros i c' Hi. specialize (H (S i) c' Hi).
  change (clock (set_reads (S (S (reads w))) w)) with (clock w).
  change (reads (set_reads (S (S (reads w))) w)) with (S (S (reads w))).
  replace (S (S (reads w)) + 2 * i)%nat with (reads w + 2 * S i)%nat by lia.
  exact H.
Qed.

(** X8.  What [fetch_events] asks the store: one search for each given
    calendar, in order, for the window that starts at one reading of the
    clock and ends [FETCH_EVENT_WINDOW_IN_DAYS] days after the next
    reading.  Two stores that answer these searches alike give the same
    result, however they differ elsewhere. *)
Theorem fetch_events_searches_only_the_windows (gw gw' : Gateway)
    (cs : list Calendar) (w : World) :
  (forall i c, nth_error cs i = Some c ->
     calendar_search gw (cal_url c)
       (clock w (reads w + 2 * i))
       (clock w (reads w + 2 * i + 1) +
        86400 * FETCH_EVENT_WINDOW_IN_DAYS config) =
     calendar_search gw' (cal_url c)
       (clock w (reads w + 2 * i))
       (clock w (reads w + 2 * i + 1) +
        86400 * FETCH_EVENT_WINDOW_IN_DAYS config)) ->
  fetch_events config gw cs w = fetch_events config gw' cs w.
Proof.
  intros H. unfold fetch_events. apply fetch_events_loop_windows. exact H.
Qed.
End FetchMore.

(* ================================================================== *)
(** ** Frames of the handlers *)

(** What a property must tolerate to survive each handler. *)
Definition ignores_tasks (P : World -> Prop) : Prop :=
  (forall ts w, P w -> P (set_tasks ts w)) /\
  (forall t w, P w -> P (set_reminder_task t w)).

Definition ignores_queue (P : World -> Prop) : Prop :=
  forall q w, P w -> P (set_sorted_reminders q w).

Definition ignores_cals (P : World -> Prop) : Prop :=
  forall c w, P w -> P (set_cals c w).

Definition ignores_sent (P : World -> Prop) : Prop :=
  forall n o w, P w -> P (set_sent n o w).

Lemma preserves_scheduleReminderTask (P : World -> Prop) :
  ignores_tasks P -> preserves P scheduleReminderTask.
Proof.
  intros [Hts Hh] w Hw. rewrite scheduleReminderTask_spec.
  destruct (sorted_reminders w); simpl; auto.
Qed.

Lemma preserves_create_task (P : World -> Prop) (d : Z) (h : Handler) :
  ignores_tasks P -> preserves P (create_task d h).
Proof. intros [Hts _] w Hw. simpl. apply Hts. exact Hw. Qed.

Lemma preserves_process_reminders (P : World -> Prop) :
  ignores_env P -> ignores_queue P -> ignores_sent P -> ignores_tasks P ->
  preserves P process_reminders.
Proof.
  intros He Hq Hs Ht w Hw. rewrite process_reminders_unfold.
  assert (P (set_reminder_task None w)) as H0 by (apply Ht; exact Hw).
  revert H0. generalize (set_reminder_task None w).
  generalize (S (length (sorted_reminders w))). intros fuel.
  change (preserves P (while_process_next fuel ;; scheduleReminderTask)).
  apply preserves_bind.
  - apply preserves_while_process_next; assumption.
  - intros _. apply preserves_scheduleReminderTask. exact Ht.
Qed.

Section HandlerFrames.
Context {cmpA : RichCmp VAlarm} {cmpE : RichCmp VEvent}.
Variable config : Config.

Lemma preserves_update_queue_any (P : World -> Prop) (events : list Event) :
  ignores_env P -> ignores_queue P -> ignores_tasks P ->
  preserves P (update_queue events).
Proof.
  intros He Hq Ht.
  destruct events as [|ev events]; [apply preserves_ret|].
  unfold update_queue. apply preserves_bind.
  - apply preserves_extract_reminders. exact He.
  - intros new. apply preserves_bind_get. intros w Hw.
    destruct (list_ne new (sorted_reminders w)); [|exact Hw].
    unfold bind, modify. apply preserves_scheduleReminderTask; [exact Ht|].
    apply Hq. exact Hw.
Qed.

Lemma preserves_sync_any (P : World -> Prop) (gw : Gateway) :
  ignores_env P -> ignores_cals P -> ignores_queue P -> ignores_tasks P ->
  preserves P (sync config gw).
Proof.
  intros He Hc Hq Ht. unfold sync, sync_try. frame.
  - apply preserves_sync_fetch; assumption.
  - apply preserves_update_queue_any; assumption.
  - apply preserves_create_task. exact Ht.
Qed.

(** X9.  A sync cycle never sends a notification: whatever the store
    answers and however the cycle ends, the messages delivered and the
    count of sends attempted are those from before the cycle. *)
Theorem sync_never_sends (gw : Gateway) (w : World) :
  outbox (fst (sync config gw w)) = outbox w /\
  attempts (fst (sync config gw w)) = attempts w.
Proof.
  apply (preserves_sync_any
           (fun w' => outbox w' = outbox w /\ attempts w' = attempts w) gw).
  - split; intros; assumption.
  - intros c w' H. exact H.
  - intros q w' H. exact H.
  - split; intros; assumption.
  - split; reflexivity.
Qed.

Lemma sync_keeps_clock (gw : Gateway) (w : World) :
  clock (fst (sync config gw w)) = clock w.
Proof.
  apply (preserves_sync_any (fun w' => clock w' = clock w) gw).
  - split; intros; assumption.
  - intros c w' H. exact H.
  - intros q w' H. exact H.
  - split; intros; assumption.
  - reflexivity.
Qed.


(** X11.  The early [return] of line 222.  When no calendar list is held
    and the handler has no principal, the cycle logs that the calendars
    cannot be fetched and that it cannot sync, asks the store nothing, and
    the [return] runs into the [finally] suite: [sync] ends with
    [UnboundLocalError], holds no calendar list and has scheduled
    nothing. *)
Theorem sync_without_principal (gw : Gateway) (w : World) :
  principal gw = false ->
  cals w = None ->
  snd (sync config gw w) = Raise UnboundLocalError /\
  log (fst (sync config gw w)) =
    Error_CannotSyncCalendar :: Error_CannotFetchCalendars ::
    Info_Syncing :: log w /\
  cals (fst (sync config gw w)) = None /\
  scheduler_state (fst (sync config gw w)) = scheduler_state w /\
  reads (fst (sync config gw w)) = reads w.
Proof.
  intros Hp Hc.
  assert (cycle_fetch config gw w =
          (set_log (Error_CannotSyncCalendar :: Error_CannotFetchCalendars ::
                    Info_Syncing :: log w) (set_cals None w), Ok None)) as Hf.
  { unfold cycle_fetch, sync_fetch, ensure_cals, fetch_calendars.
    unfold bind, get, logging, modify, ret. simpl. rewrite Hc, Hp. reflexivity. }
  rewrite (sync_returned_early config gw w _ Hf). simpl. auto.
Qed.

Lemma sync_depends_on_fetch (gw gw' : Gateway) (w : World) :
  cycle_fetch config gw w = cycle_fetch config gw' w ->
  sync config gw w = sync config gw' w.
Proof.
  intros H.
  destruct (cycle_fetch config gw' w) as [w1 [[events|]|e]] eqn:Hf'.
  - destruct (update_queue events w1) as [w2 [[]|e]] eqn:Hu.
    + rewrite (sync_completed config gw w w1 w2 events H Hu).
      rewrite (sync_completed config gw' w w1 w2 events Hf' Hu). reflexivity.
    + rewrite (sync_update_raised config gw w w1 w2 events e H Hu).
      rewrite (sync_update_raised config gw' w w1 w2 events e Hf' Hu).
      reflexivity.
  - rewrite (sync_returned_early config gw w w1 H).
    rewrite (sync_returned_early config gw' w w1 Hf'). reflexivity.
  - rewrite (sync_fetch_raised config gw w w1 e H).
    rewrite (sync_fetch_raised config gw' w w1 e Hf'). reflexivity.
Qed.

Lemma sync_fetch_cached (gw : Gateway) (w : World) (cs : list Calendar) :
  cals w = Some cs ->
  sync_fetch config gw w =
  (cals_subscripted <- lift (filter_subscribed config cs) ;;
   events <- fetch_events config gw cals_subscripted ;;
   ret (Some events)) w.
Proof.
  intros Hc. unfold sync_fetch, ensure_cals.
  unfold bind at 1. unfold bind at 1. unfold get. rewrite Hc. reflexivity.
Qed.

(** X12.  The calendar list is fetched once.  A worker that holds a
    calendar list does not ask the store for it again: two stores that
    answer the event searches alike lead to the same cycle, whatever they
    say about the principal and its calendars. *)
Theorem sync_uses_cached_calendars (gw gw' : Gateway) (w : World)
    (cs : list Calendar) :
  cals w = Some cs ->
  (forall url s t, calendar_search gw url s t = calendar_search gw' url s t) ->
  sync config gw w = sync config gw' w.
Proof.
  intros Hc Hs. apply sync_depends_on_fetch.
  unfold cycle_fetch.
  rewrite !(sync_fetch_cached _ _ cs) by exact Hc.
  unfold bind at 1 3. unfold lift.
  destruct (filter_subscribed config cs) as [subs|e]; [|reflexivity].
  unfold bind. unfold fetch_events.
  rewrite (fetch_events_loop_windows config gw gw' subs [] _
             (fun i c _ => Hs _ _ _)).
  reflexivity.
Qed.
End HandlerFrames.

(* ================================================================== *)
(** ** The event loop, continued *)

Lemma scheduled_sync_finish_in_eq (t : nat) (k : Task) :
  scheduled_sync (finish_in t k) = scheduled_sync k && negb (Nat.eqb (tid k) t).
Proof.
  destruct k as [i d h s]. unfold finish_in, scheduled_sync. simpl.
  destruct (Nat.eqb i t), h, s; reflexivity.
Qed.

Lemma count_sync_map (f : Task -> Task) (ts : list Task) :
  (forall k, scheduled_sync (f k) = true -> scheduled_sync k = true) ->
  (length (filter scheduled_sync (map f ts)) <=
   length (filter scheduled_sync ts))%nat.
Proof.
  intros Hf. induction ts as [|k ts IH]; simpl; [lia|].
  destruct (scheduled_sync (f k)) eqn:E.
  - rewrite (Hf k E). simpl. lia.
  - destruct (scheduled_sync k); simpl; lia.
Qed.

Lemma count_sync_schedule (w : World) :
  (length (sync_tasks (fst (scheduleReminderTask w))) <=
   length (sync_tasks w))%nat.
Proof.
  rewrite scheduleReminderTask_spec. unfold sync_tasks.
  assert (length (filter scheduled_sync (tasks_after_cancel w)) <=
          length (filter scheduled_sync (tasks w)))%nat as Hc.
  { unfold tasks_after_cancel. destruct (reminder_task w) as [t|]; [|lia].
    apply count_sync_map. apply scheduled_sync_cancel_in. }
  destruct (sorted_reminders w); simpl; [exact Hc|].
  rewrite filter_app. simpl. rewrite app_nil_r. exact Hc.
Qed.

(** The sync task that wakes up is the only pending one. *)
Lemma no_sync_pending_after_wake (w : World) (k : Task) :
  (length (sync_tasks w) <= 1)%nat ->
  In k (tasks w) -> scheduled_sync k = true ->
  sync_tasks (wake (tid k) w) = [].
Proof.
  intros Hone Hk Hs. unfold sync_tasks in *. simpl.
  assert (filter scheduled_sync (tasks w) = [k]) as Hf.
  { assert (In k (filter scheduled_sync (tasks w))) as Hin
      by (apply filter_In; auto).
    destruct (filter scheduled_sync (tasks w)) as [|a [|b l]];
      simpl in *; [tauto| |lia].
    destruct Hin as [->|[]]. reflexivity. }
  destruct (filter scheduled_sync (map (finish_in (tid k)) (tasks w)))
    as [|x l] eqn:E; [reflexivity|].
  exfalso.
  assert (In x (filter scheduled_sync (map (finish_in (tid k)) (tasks w))))
    as Hx by (rewrite E; left; reflexivity).
  apply filter_In in Hx. destruct Hx as [Hx Hsx].
  apply in_map_iff in Hx. destruct Hx as [k0 [<- Hk0]].
  rewrite scheduled_sync_finish_in_eq in Hsx.
  apply andb_prop in Hsx. destruct Hsx as [Hs0 Hne].
  assert (In k0 (filter scheduled_sync (tasks w))) as Hin0
    by (apply filter_In; auto).
  rewrite Hf in Hin0. destruct Hin0 as [->|[]].
  rewrite Nat.eqb_refl in Hne. discriminate.
Qed.

Section UpdateQueueCases.
Context {cmpA : RichCmp VAlarm} {cmpE : RichCmp VEvent}.

(** The three ways lines 226-230 can go. *)
Lemma update_queue_cases (events : list Event) (w : World) :
  (exists n, update_queue events w = (set_reads n w, Ok tt)) \/
  (exists n new,
     list_eq new (sorted_reminders w) = false /\
     update_queue events w =
     scheduleReminderTask (set_sorted_reminders new (set_reads n w))) \/
  (exists n e, update_queue events w = (set_reads n w, Raise e)).
Proof.
  destruct events as [|ev events].
  - left. exists (reads w). rewrite set_reads_same. reflexivity.
  - remember (ev :: events) as evs eqn:E.
    assert (evs <> []) as Hne by (subst; discriminate).
    pose proof (extract_reminders_spec evs w) as Hx.
    destruct (list_sort _) as [new|e] eqn:Hs in Hx.
    + destruct (list_eq new (sorted_reminders w)) eqn:Heq.
      * left. eexists. apply (update_queue_equal _ _ _ _ Hne Hx Heq).
      * right. left. eexists. exists new. split; [exact Heq|].
        apply (update_queue_differ _ _ _ _ Hne Hx Heq).
    + right. right. eexists. exists e.
      apply (update_queue_raise _ _ _ _ Hne Hx).
Qed.
End UpdateQueueCases.

Section EventLoopMore.
Context {cmpA : RichCmp VAlarm} {cmpE : RichCmp VEvent}.
Variable config : Config.

Lemma count_sync_update_queue (events : list Event) (w : World) :
  (length (sync_tasks (fst (update_queue events w))) <=
   length (sync_tasks w))%nat.
Proof.
  destruct (update_queue_cases events w)
    as [[n ->] | [(n & new & _ & ->) | (n & e & ->)]].
  - simpl. unfold sync_tasks. simpl. lia.
  - eapply Nat.le_trans; [apply count_sync_schedule|].
    unfold sync_tasks. simpl. lia.
  - simpl. unfold sync_tasks. simpl. lia.
Qed.

Lemma count_sync_after_sync (gw : Gateway) (w : World) :
  (length (sync_tasks (fst (sync config gw w))) <=
   S (length (sync_tasks w)))%nat.
Proof.
  pose proof (cycle_fetch_scheduler_state config gw w) as Hw.
  destruct (cycle_fetch config gw w) as [w1 [[events|]|e]] eqn:Hf;
    simpl in Hw; unfold scheduler_state in Hw; injection Hw as _ _ Hts _ _.
  - pose proof (count_sync_update_queue events w1) as Hc.
    destruct (update_queue events w1) as [w2 [[]|e]] eqn:Hu; simpl in Hc.
    + rewrite (sync_completed config gw w w1 w2 events Hf Hu).
      unfold sync_tasks in *. simpl. rewrite filter_app, length_app. simpl.
      rewrite Hts in Hc. lia.
    + rewrite (sync_update_raised config gw w w1 w2 events e Hf Hu).
      unfold sync_tasks in *. simpl. rewrite Hts in Hc. lia.
  - rewrite (sync_returned_early config gw w w1 Hf).
    unfold sync_tasks. simpl. rewrite Hts. lia.
  - rewrite (sync_fetch_raised config gw w w1 e Hf).
    unfold sync_tasks. simpl. rewrite Hts. lia.
Qed.

Lemma count_sync_after_fire (w : World) (t : nat) :
  (length (sync_tasks (fst (process_reminders (wake t w)))) <=
   length (sync_tasks w))%nat.
Proof.
  assert (length (sync_tasks (wake t w)) <= length (sync_tasks w))%nat as H0.
  { unfold sync_tasks. simpl. apply count_sync_map.
    apply scheduled_sync_finish_in. }
  revert H0. generalize (wake t w). intros w0 H0.
  rewrite process_reminders_unfold.
  set (n := length (sync_tasks w)) in *.
  assert (preserves (fun w' => (length (sync_tasks w') <= n)%nat)
            (while_process_next (S (length (sorted_reminders w0))) ;;
             scheduleReminderTask)) as Hp.
  { apply preserves_bind.
    - apply preserves_while_process_next;
        [split; intros; assumption | intros; assumption | intros; assumption].
    - intros _ w' Hw'. eapply Nat.le_trans; [apply count_sync_schedule|].
      exact Hw'. }
  apply Hp. exact H0.
Qed.

(** X13.  The cadence is single: in every state the worker reaches from
    its start, at most one sync cycle is pending.  A cycle that wakes up
    leaves none pending and creates at most one successor; a timer firing
    creates none. *)
Theorem at_most_one_sync_pending (clk : nat -> Z) (snk : nat -> bool) (w : World) :
  reachable config (initial_world clk snk) w ->
  (length (sync_tasks w) <= 1)%nat.
Proof.
  intros Hr. induction Hr as [|w w' Hr IH Hs].
  - simpl. lia.
  - destruct Hs as [gw k w Hk Hsync | k w Hk Ha].
    + pose proof (no_sync_pending_after_wake w k IH Hk Hsync) as H0.
      pose proof (count_sync_after_sync gw (wake (tid k) w)) as Hc.
      rewrite H0 in Hc. simpl in Hc. exact Hc.
    + eapply Nat.le_trans; [apply count_sync_after_fire|exact IH].
Qed.
End EventLoopMore.

(* ================================================================== *)
(** ** The wake-timer and the head of the queue *)

(** Every outstanding wake-timer is due at the fire instant of the head of
    the queue.  A sync cycle keeps this and a drain restores it at its end;
    it need not hold while a drain is suspended in [send_message], between
    the removal of a reminder and the reschedule. *)
Definition targets_head (w : World) : Prop :=
  forall k, In k (tasks w) -> armed k = true ->
  exists first rest,
    sorted_reminders w = first :: rest /\ deadline k = dt first.

Lemma targets_head_disarmed (w : World) :
  disarmed (tasks w) -> targets_head w.
Proof. intros H k Hk Ha. rewrite (H k Hk) in Ha. discriminate. Qed.

Lemma sorted_reminders_after_schedule (w : World) :
  sorted_reminders (fst (scheduleReminderTask w)) = sorted_reminders w.
Proof.
  apply (preserves_scheduleReminderTask
           (fun w' => sorted_reminders w' = sorted_reminders w)).
  - split; intros; assumption.
  - reflexivity.
Qed.

Lemma targets_head_after_schedule (w : World) :
  handle_tracks (tasks w) (reminder_task w) ->
  targets_head (fst (scheduleReminderTask w)).
Proof.
  intros Hh k Hk Ha.
  assert (In k (timers (fst (scheduleReminderTask w)))) as Hin
    by (apply filter_In; auto).
  rewrite (timers_after_schedule w Hh) in Hin.
  rewrite sorted_reminders_after_schedule.
  destruct (sorted_reminders w) as [|first rest]; [destruct Hin|].
  destruct Hin as [<-|[]]. exists first, rest. auto.
Qed.

(** Two worlds with the same queue, handle and tasks. *)
Lemma targets_head_same (w w' : World) :
  sorted_reminders w' = sorted_reminders w -> tasks w' = tasks w ->
  targets_head w -> targets_head w'.
Proof.
  intros Hq Ht H k Hk Ha. rewrite Ht in Hk. rewrite Hq. apply H; assumption.
Qed.

Lemma single_flight_same (w w' : World) :
  reminder_task w' = reminder_task w -> tasks w' = tasks w ->
  single_flight w -> single_flight w'.
Proof. unfold single_flight. intros -> ->. auto. Qed.

Lemma targets_head_wake (t : nat) (w : World) :
  targets_head w -> targets_head (wake t w).
Proof.
  intros H k Hk Ha. simpl in Hk. apply in_map_iff in Hk.
  destruct Hk as [k0 [<- Hk0]]. rewrite armed_finish_in in Ha.
  apply andb_prop in Ha. destruct Ha as [Ha _].
  destruct (H k0 Hk0 Ha) as (first & rest & Hq & Hd).
  exists first, rest. split; [exact Hq|].
  unfold finish_in. destruct (Nat.eqb (tid k0) t); exact Hd.
Qed.

Lemma targets_head_with_sync_task (w : World) (k : Task) :
  handler k = HSync -> targets_head w ->
  targets_head (set_tasks (tasks w ++ [k]) w).
Proof.
  intros Hk H k' Hk' Ha. simpl in Hk'. apply in_app_or in Hk'.
  destruct Hk' as [Hk'|[<-|[]]].
  - apply H; assumption.
  - unfold armed in Ha. rewrite Hk in Ha. discriminate.
Qed.

Section TimerAndHead.
Context {cmpA : RichCmp VAlarm} {cmpE : RichCmp VEvent}.
Variable config : Config.

Lemma targets_head_update_queue (events : list Event) (w : World) :
  single_flight w -> targets_head w ->
  targets_head (fst (update_queue events w)).
Proof.
  intros [_ Hh] Ht.
  destruct (update_queue_cases events w)
    as [[n ->] | [(n & new & _ & ->) | (n & e & ->)]].
  - exact Ht.
  - apply targets_head_after_schedule. exact Hh.
  - exact Ht.
Qed.

Lemma targets_head_sync (gw : Gateway) (w : World) :
  single_flight w -> targets_head w ->
  targets_head (fst (sync config gw w)).
Proof.
  intros Hsf Ht.
  pose proof (cycle_fetch_scheduler_state config gw w) as Hw.
  destruct (cycle_fetch config gw w) as [w1 [[events|]|e]] eqn:Hf;
    simpl in Hw; unfold scheduler_state in Hw; injection Hw as Hq Hh Hts _ _.
  - assert (single_flight w1) as Hsf1
      by (apply (single_flight_same w); assumption).
    assert (targets_head w1) as Ht1
      by (apply (targets_head_same w); assumption).
    pose proof (targets_head_update_queue events w1 Hsf1 Ht1) as Hu2.
    destruct (update_queue events w1) as [w2 [[]|e]] eqn:Hu; simpl in Hu2.
    + rewrite (sync_completed config gw w w1 w2 events Hf Hu). simpl.
      apply (targets_head_with_sync_task (set_reads (S (reads w2)) w2));
        [reflexivity|exact Hu2].
    + rewrite (sync_update_raised config gw w w1 w2 events e Hf Hu).
      exact Hu2.
  - rewrite (sync_returned_early config gw w w1 Hf).
    apply (targets_head_same w); assumption.
  - rewrite (sync_fetch_raised config gw w w1 e Hf).
    apply (targets_head_same w); assumption.
Qed.

Lemma targets_head_fire (w : World) (k : Task) :
  single_flight w -> In k (tasks w) -> armed k = true ->
  targets_head (fst (process_reminders (wake (tid k) w))).
Proof.
  intros [Hf Hh] Hk Ha. rewrite process_reminders_unfold.
  set (w0 := set_reminder_task None (wake (tid k) w)).
  assert (disarmed (tasks w0)) as Hd0
    by (apply (disarmed_after_wake w k Hh Hk Ha)).
  set (fuel := S (length (sorted_reminders (wake (tid k) w)))).
  assert (disarmed (tasks (fst (while_process_next fuel w0)))) as Hd1.
  { destruct (while_keeps_tasks fuel w0) as [-> _]. exact Hd0. }
  unfold bind. destruct (while_process_next fuel w0) as [w1 [b|e]];
    simpl in Hd1.
  - apply targets_head_after_schedule.
    apply handle_tracks_disarmed. exact Hd1.
  - apply targets_head_disarmed. exact Hd1.
Qed.

End TimerAndHead.

(* ================================================================== *)
(** ** A list that is parsed anew is not equal to the queue *)

(** Equal in value: the same fire instants and the same messages, in the
    same order. *)
Definition value_equal (l1 l2 : list Reminder) : Prop :=
  map dt l1 = map dt l2 /\
  map reminder_message l1 = map reminder_message l2.

(** No reminder of [l1] is made of the alarm and the event object of a
    reminder of [l2].  Every search parses its answer into components of
    its own (lines 121-129), so this is how the list a cycle extracts
    stands to the queue the worker holds. *)
Definition parsed_anew (l1 l2 : list Reminder) : Prop :=
  forall r r', In r l1 -> In r' l2 -> same_components r r' = false.

(** Such lists are equal only when both are empty. *)
Lemma list_eq_parsed_anew (l1 l2 : list Reminder) :
  parsed_anew l1 l2 -> list_eq l1 l2 = true -> l1 = [] /\ l2 = [].
Proof.
  destruct l1 as [|a l1], l2 as [|b l2]; simpl; try discriminate; [auto|].
  intros Hp H. apply andb_prop in H. destruct H as [H _].
  rewrite Reminder_eq_vobject in H. apply andb_prop in H. destruct H as [_ H].
  rewrite (Hp a b) in H; [discriminate|left; reflexivity|left; reflexivity].
Qed.

Lemma extract_reminders_nil (w : World) :
  extract_reminders [] w = (set_reads (reads w + 0) w, Ok []).
Proof. rewrite extract_reminders_spec. reflexivity. Qed.

(** C4.  Line 228 compares the reminders with the [==] of the dataclass,
    which compares alarm and event as vobject compares components: by
    identity.  A cycle whose extracted list is not empty and is made of
    components parsed by this cycle therefore finds it different from the
    queue, also when the two are equal in value: the queue is replaced,
    the wake-timer the worker held is cancelled and a new one is armed, due
    at the instant the head of the old queue fires.  The cycle sends
    nothing and leaves this one wake-timer outstanding. *)
Theorem sync_reparsed_list_rearms_timer (config : Config) (gw : Gateway)
    (w w1 w2 : World) (events : list Event) (new : list Reminder) :
  single_flight w ->
  cycle_fetch config gw w = (w1, Ok (Some events)) ->
  extract_reminders events w1 = (w2, Ok new) ->
  new <> [] ->
  value_equal new (sorted_reminders w) ->
  parsed_anew new (sorted_reminders w) ->
  let w' := fst (sync config gw w) in
  list_eq new (sorted_reminders w) = false /\
  snd (sync config gw w) = Ok tt /\
  sorted_reminders w' = new /\
  reminder_task w' = Some (length (tasks w)) /\
  (forall k, In k (timers w) -> In (with_tstate Cancelled k) (tasks w')) /\
  (exists first rest old rest',
     new = first :: rest /\ sorted_reminders w = old :: rest' /\
     dt first = dt old /\
     timers w' = [wake_timer (length (tasks w)) first]) /\
  attempts w' = attempts w /\ outbox w' = outbox w.
Proof.
  intros [_ Hh] Hf Hx Hne [Hdt _] Hp w'.
  assert (events <> []) as Hev.
  { intros ->. rewrite extract_reminders_nil in Hx. congruence. }
  assert (list_eq new (sorted_reminders w) = false) as Heq.
  { destruct (list_eq new (sorted_reminders w)) eqn:E; [|reflexivity].
    destruct (list_eq_parsed_anew _ _ Hp E) as [-> _]. congruence. }
  pose proof (cycle_fetch_scheduler_state config gw w) as Hw.
  rewrite Hf in Hw. simpl in Hw. unfold scheduler_state in Hw.
  injection Hw as Hq1 Hh1 Hts1 Ha1 Ho1.
  pose proof Heq as Heq1. rewrite <- Hq1 in Heq1.
  pose proof (update_queue_differ events w1 w2 new Hev Hx Heq1) as Hu.
  assert (w2 = set_reads (reads w1 + length (candidates events)) w1) as E.
  { rewrite extract_reminders_spec in Hx. congruence. }
  set (w3 := set_sorted_reminders new w2) in *.
  assert (tasks_after_cancel w3 = tasks_after_cancel w) as Hc.
  { unfold tasks_after_cancel, w3. rewrite E. simpl.
    rewrite Hh1, Hts1. reflexivity. }
  assert (handle_tracks (tasks w3) (reminder_task w3)) as Hh3.
  { unfold w3. rewrite E. simpl. rewrite Hh1, Hts1. exact Hh. }
  pose proof (filter_disarmed _ (disarmed_after_cancel w Hh)) as Hd.
  pose proof (length_tasks_after_cancel w) as Hl.
  destruct new as [|first rest]; [congruence|].
  destruct (sorted_reminders w) as [|old rest'] eqn:Hq; [discriminate Hdt|].
  injection Hdt as Hd0 _.
  rewrite scheduleReminderTask_spec in Hu.
  change (sorted_reminders w3) with (first :: rest) in Hu.
  rewrite Hc, Hl in Hu.
  unfold w'. rewrite (sync_completed config gw w w1 _ events Hf Hu).
  unfold w3. rewrite E. simpl.
  split; [exact Heq|]. split; [reflexivity|]. split; [reflexivity|].
  split; [reflexivity|]. split; [|split].
  - intros k Hk. unfold timers in Hk. apply filter_In in Hk.
    destruct Hk as [Hk Hka]. pose proof (Hh k Hk Hka) as Ht.
    apply in_or_app. left. apply in_or_app. left.
    unfold tasks_after_cancel. rewrite Ht. apply in_map_iff. exists k.
    split; [|exact Hk]. unfold cancel_in. rewrite Nat.eqb_refl.
    unfold armed in Hka. unfold is_pending.
    destruct (handler k); [discriminate|].
    destruct (tstate k); try discriminate. reflexivity.
  - exists first, rest, old, rest'. repeat (split; [reflexivity || assumption|]).
    unfold timers. simpl. rewrite timers_with_sync_task, filter_app, Hd.
    reflexivity.
  - split; assumption.
Qed.

(* ================================================================== *)
(** ** The dispatch drain, continued *)

(** [r] had reached its fire instant at a reading taken from [w] on. *)
Definition was_due (w : World) (r : Reminder) : Prop :=
  exists n, (reads w <= n)%nat /\ dt r <= clock w n.

Lemma was_due_later (w w1 : World) (r : Reminder) :
  clock w1 = clock w -> (reads w <= reads w1)%nat ->
  was_due w1 r -> was_due w r.
Proof.
  intros Hc Hr [n [Hn Hd]]. exists n. rewrite <- Hc. split; [lia|exact Hd].
Qed.

(** What the loop does to the queue and the outbox, whatever the clock and
    the sink do. *)
Lemma while_sends_a_prefix (fuel : nat) :
  forall w : World,
  exists sent dropped,
    sorted_reminders w =
      sent ++ dropped ++ sorted_reminders (fst (while_process_next fuel w)) /\
    (length dropped <= 1)%nat /\
    outbox (fst (while_process_next fuel w)) =
      rev (map reminder_message sent) ++ outbox w /\
    Forall (was_due w) sent.
Proof.
  induction fuel as [|fuel IH]; intros w.
  - exists [], []. simpl. auto.
  - simpl. destruct (sorted_reminders w) as [|r rest] eqn:Hq.
    + rewrite (bind_ok _ _ _ _ _ (process_next_empty w Hq)). simpl.
      exists [], []. rewrite Hq. simpl. auto.
    + destruct (Z_le_gt_dec (dt r) (clock w (reads w))) as [Hle|Hgt].
      * destruct (sink w (attempts w)) eqn:Hs.
        -- rewrite (bind_ok _ _ _ _ _ (process_next_sent w r rest Hq Hle Hs)).
           set (w1 := attempted r rest (reminder_message r :: outbox w) w).
           destruct (IH w1) as (sent & dropped & Hq1 & Hl & Ho & Hd).
           exists (r :: sent), dropped. simpl in Hq1.
           split; [simpl; rewrite <- Hq1; reflexivity|].
           split; [exact Hl|]. split.
           ++ rewrite Ho. simpl. rewrite <- app_assoc. reflexivity.
           ++ constructor.
              ** exists (reads w). split; [lia|exact Hle].
              ** eapply Forall_impl; [|exact Hd]. intros x Hx.
                 apply (was_due_later w w1); [reflexivity|simpl; lia|exact Hx].
        -- rewrite (bind_raise _ _ _ _ _
                      (process_next_failed w r rest Hq Hle Hs)).
           exists [], [r]. simpl. auto.
      * rewrite (bind_ok _ _ _ _ _
                   (process_next_future w r rest Hq ltac:(lia))).
        exists [], [r]. simpl. auto.
Qed.



(** X18.  The reschedule procedure can be called again without harm: in a
    state where the handle tracks the timers, a second call cancels the
    timer the first call armed and arms one for the same head, so that
    still exactly one timer is outstanding (none for an empty queue). *)
Theorem reschedule_twice (w : World) :
  handle_tracks (tasks w) (reminder_task w) ->
  tids_fresh (tasks w) ->
  let w1 := fst (scheduleReminderTask w) in
  let w2 := fst (scheduleReminderTask w1) in
  sorted_reminders w2 = sorted_reminders w /\
  timers w2 =
    match sorted_reminders w with
    | [] => []
    | first :: _ => [wake_timer (S (length (tasks w))) first]
    end /\
  (forall k, In k (timers w1) -> In (with_tstate Cancelled k) (tasks w2)).
Proof.
  intros Hh Hf w1 w2.
  assert (single_flight w1) as [Hf1 Hh1]
    by (apply schedule_single_flight; split; assumption).
  pose proof (sorted_reminders_after_schedule w) as Hq1. fold w1 in Hq1.
  pose proof (sorted_reminders_after_schedule w1) as Hq2. fold w2 in Hq2.
  split; [congruence|]. split.
  - unfold w2. rewrite (timers_after_schedule w1 Hh1). rewrite Hq1.
    destruct (sorted_reminders w) as [|first rest] eqn:Hq; [reflexivity|].
    unfold w1. rewrite scheduleReminderTask_spec, Hq. simpl.
    rewrite length_app, length_tasks_after_cancel. simpl.
    rewrite Nat.add_1_r. reflexivity.
  - intros k Hk. unfold timers in Hk. apply filter_In in Hk.
    destruct Hk as [Hk Ha]. pose proof (Hh1 k Hk Ha) as Ht.
    assert (In (with_tstate Cancelled k) (tasks_after_cancel w1)) as Hin.
    { unfold tasks_after_cancel. rewrite Ht. apply in_map_iff. exists k.
      split; [|exact Hk]. unfold cancel_in. rewrite Nat.eqb_refl.
      unfold armed in Ha. unfold is_pending.
      destruct (handler k); [discriminate|].
      destruct (tstate k); try discriminate. reflexivity. }
    unfold w2. rewrite scheduleReminderTask_spec.
    destruct (sorted_reminders w1); simpl; [exact Hin|].
    apply in_or_app. left. exact Hin.
Qed.

(* ================================================================== *)
(** ** The subscription filter and [CALENDAR_IDS] *)

Lemma split_on_not_nil (sep : ascii) (s : string) : split_on sep s <> [].
Proof.
  destruct s as [|c s]; simpl; [discriminate|].
  destruct (Ascii.eqb c sep); [discriminate|].
  destruct (split_on sep s); discriminate.
Qed.

(** [c in s] for a character and a string. *)
Fixpoint occurs (c : ascii) (s : string) : bool :=
  match s with
  | EmptyString => false
  | String c' s' => Ascii.eqb c' c || occurs c s'
  end.

Lemma split_on_join (sep : ascii) (s : string) :
  String.concat (String sep EmptyString) (split_on sep s) = s.
Proof.
  induction s as [|c s IH]; [reflexivity|]. simpl split_on.
  pose proof (split_on_not_nil sep s) as Hne.
  destruct (Ascii.eqb c sep) eqn:E.
  - apply Ascii.eqb_eq in E. subst c.
    destruct (split_on sep s) as [|x l]; [congruence|].
    simpl in *. rewrite IH. reflexivity.
  - destruct (split_on sep s) as [|x l]; [congruence|].
    simpl in *. destruct l; simpl in *; rewrite <- IH; reflexivity.
Qed.

Lemma split_on_no_sep (sep : ascii) (s : string) :
  Forall (fun f => occurs sep f = false) (split_on sep s).
Proof.
  induction s as [|c s IH]; simpl; [repeat constructor|].
  destruct (Ascii.eqb c sep) eqn:E.
  - constructor; [reflexivity|exact IH].
  - destruct (split_on sep s) as [|x l]; [repeat constructor; simpl; now rewrite E|].
    inversion IH as [|x' l' Hx Hl]; subst.
    constructor; [simpl; rewrite E; exact Hx|exact Hl].
Qed.

Lemma Config_CALENDAR_IDS_some (text : string) :
  text <> EmptyString ->
  Config_CALENDAR_IDS (Some text) = Some (split_on ";"%char text).
Proof. destruct text; [congruence|reflexivity]. Qed.

(** X19.  Line 39.  The configuration holds [None] exactly when the
    variable [CALENDAR_IDS] is unset or empty.  Otherwise it holds the
    fields between the semicolons of the text, at least one: no field
    contains a semicolon, and the fields joined by semicolons are the text
    again (so two semicolons in a row give an empty identifier). *)
Theorem Config_CALENDAR_IDS_fields (env : option string) :
  (Config_CALENDAR_IDS env = None <-> env = None \/ env = Some EmptyString) /\
  (forall ids, Config_CALENDAR_IDS env = Some ids ->
     ids <> [] /\
     Forall (fun f => occurs ";"%char f = false) ids /\
     env = Some (String.concat ";" ids)).
Proof.
  split.
  - destruct env as [[|c s]|]; simpl; split; intros H;
      try reflexivity; try discriminate; auto.
    destruct H as [H|H]; discriminate.
  - intros ids H.
    destruct env as [text|]; [|discriminate].
    destruct (string_dec text EmptyString) as [->|Hne]; [discriminate|].
    rewrite (Config_CALENDAR_IDS_some text Hne) in H.
    assert (ids = split_on ";"%char text) as -> by congruence.
    split; [apply split_on_not_nil|].
    split; [apply split_on_no_sep|].
    rewrite split_on_join. reflexivity.
Qed.

Section Subscription.
Context {cmpA : RichCmp VAlarm} {cmpE : RichCmp VEvent}.
Variable config : Config.

Definition subscribed (ids : list string) (c : Calendar) : bool :=
  existsb (String.eqb (cal_id c)) ids.

Lemma filter_subscribed_some (ids : list string) (cs : list Calendar) :
  CALENDAR_IDS config = Some ids ->
  filter_subscribed config cs = Ok (filter (subscribed ids) cs).
Proof.
  intros Hi. induction cs as [|c cs IH]; simpl; [reflexivity|].
  unfold id_in_CALENDAR_IDS. rewrite Hi. simpl. rewrite IH. reflexivity.
Qed.

Lemma nth_error_filter_In {A} (f : A -> bool) (l : list A) (i : nat) (x : A) :
  nth_error (filter f l) i = Some x -> In x l /\ f x = true.
Proof.
  intros H. apply nth_error_In in H. apply filter_In in H. exact H.
Qed.

(** X20.  Line 224.  With a list of identifiers configured, a cycle of a
    worker that holds a calendar list searches exactly the calendars whose
    identifier is in the list: the filter does not raise, and two stores
    that answer alike for the subscribed calendars lead to the same cycle,
    whatever they answer for the others. *)
Theorem sync_searches_only_subscribed (gw gw' : Gateway) (w : World)
    (cs : list Calendar) (ids : list string) :
  CALENDAR_IDS config = Some ids ->
  cals w = Some cs ->
  (forall c, In c cs -> subscribed ids c = true ->
     forall s t, calendar_search gw (cal_url c) s t =
                 calendar_search gw' (cal_url c) s t) ->
  filter_subscribed config cs = Ok (filter (subscribed ids) cs) /\
  sync config gw w = sync config gw' w.
Proof.
  intros Hi Hc Hs. split; [apply filter_subscribed_some; exact Hi|].
  apply sync_depends_on_fetch. unfold cycle_fetch.
  rewrite !(sync_fetch_cached _ _ _ cs) by exact Hc.
  unfold bind at 1 3. unfold lift.
  rewrite (filter_subscribed_some ids cs Hi).
  unfold bind. unfold fetch_events.
  rewrite (fetch_events_loop_windows config gw gw' _ [] _).
  - reflexivity.
  - intros i c Hn. apply nth_error_filter_In in Hn. destruct Hn as [Hin Hsub].
    apply Hs; assumption.
Qed.
End Subscription.

(* ================================================================== *)
(** ** Start-up: [Config.__init__], [CaldavHandler.login], [__main__] *)

Module Startup.

(** [os.environ.get(key, None)] *)
Definition Environ : Type := string -> option string.

(** The attributes of [Config] that [__main__] validates. *)
Record Credentials : Type := {
  CALDAV_URL : option string;
  CALDAV_USERNAME : option string;
  CALDAV_PASSWORD : option string;
  TELEGRAM_BOT_TOKEN : option string;
  TELEGRAM_CHAT_ID : option string
}.

(** What the process writes to the log before the worker runs (in the
    lists below, latest first). *)
Inductive Record_ : Type :=
| Error_URLNotSet
| Error_LoginDataNotSet
| Error_TelegramNotSet
| Warning_Authorization
| Error_LoginFailed.

(** What [dav_client.principal()] does. *)
Inductive PrincipalReply : Type :=
| Principal           (* the principal object *)
| AuthorizationError  (* [caldav.lib.error.AuthorizationError] *)
| OtherError.         (* any other exception *)

Inductive Outcome : Type :=
| Exit (status : Z) (log : list Record_)   (* [sys.exit(status)] *)
| Uncaught (log : list Record_)            (* an exception ends the process *)
| Running (config : Config) (principal : bool) (w : World).
                                           (* [worker.run()] *)

Section Main.
(** [pytz.timezone(name)]: the zone, or [None] for [UnknownTimeZoneError]. *)
Variable timezone : string -> option (Z -> Z).
(** [int(text)] for the two numeric settings. *)
Variable int_of : string -> Z.

Definition get_default {A} (o : option A) (d : A) : A :=
  match o with Some a => a | None => d end.

(** [Config.__init__] *)
Definition Config_init (env : Environ) : option (Credentials * Config) :=
  match timezone (get_default (env "TIMEZONE"%string) "UTC"%string) with
  | None => None
  | Some tz =>
      Some ({| CALDAV_URL := env "CALDAV_URL"%string;
               CALDAV_USERNAME := env "CALDAV_USERNAME"%string;
               CALDAV_PASSWORD := env "CALDAV_PASSWORD"%string;
               TELEGRAM_BOT_TOKEN := env "TELEGRAM_BOT_TOKEN"%string;
               TELEGRAM_CHAT_ID := env "TELEGRAM_CHAT_ID"%string |},
            {| CALENDAR_IDS := Config_CALENDAR_IDS (env "CALENDAR_IDS"%string);
               SYNC_INTERVAL_IN_SEC :=
                 match env "SYNC_INTERVAL_IN_SEC"%string with
                 | Some text => int_of text
                 | None => 1800
                 end;
               FETCH_EVENT_WINDOW_IN_DAYS :=
                 match env "FETCH_EVENT_WINDOW_IN_DAYS"%string with
                 | Some text => int_of text
                 | None => 5
                 end;
               TIMEZONE_localize := tz |})
  end.

(** [login]: [Some true] with the principal stored, [Some false] after an
    [AuthorizationError] (logged as a warning), [None] when another
    exception escapes. *)
Definition login (reply : PrincipalReply) : option bool * list Record_ :=
  match reply with
  | Principal => (Some true, [])
  | AuthorizationError => (Some false, [Warning_Authorization])
  | OtherError => (None, [])
  end.

Definition is_None {A} (o : option A) : bool :=
  match o with None => true | Some _ => false end.

(** [if __name__ == '__main__':] *)
Definition main (env : Environ) (reply : PrincipalReply)
    (clk : nat -> Z) (snk : nat -> bool) : Outcome :=
  match Config_init env with
  | None => Uncaught []
  | Some (cred, config) =>
      if is_None (CALDAV_URL cred) then Exit 1 [Error_URLNotSet]
      else if is_None (CALDAV_USERNAME cred) || is_None (CALDAV_PASSWORD cred)
      then Exit 1 [Error_LoginDataNotSet]
      else if is_None (TELEGRAM_BOT_TOKEN cred) ||
              is_None (TELEGRAM_CHAT_ID cred)
      then Exit 1 [Error_TelegramNotSet]
      else
        match login reply with
        | (Some false, log) => Exit 1 (Error_LoginFailed :: log)
        | (None, log) => Uncaught log
        | (Some true, _) => Running config true (initial_world clk snk)
        end
  end.

(** The five settings [__main__] insists on. *)
Definition required : list string :=
  ["CALDAV_URL"; "CALDAV_USERNAME"; "CALDAV_PASSWORD";
   "TELEGRAM_BOT_TOKEN"; "TELEGRAM_CHAT_ID"]%string.

Definition all_set (env : Environ) : bool :=
  forallb (fun key => negb (is_None (env key))) required.

(** X21.  The worker is started exactly when the five required settings
    are present, the time zone is known and the server hands out the
    principal.  Only presence is tested: a setting that is present but
    empty passes, and [CALENDAR_IDS] is not among the settings tested. *)
Theorem main_runs_iff (env : Environ) (reply : PrincipalReply)
    (clk : nat -> Z) (snk : nat -> bool) :
  (exists config p w, main env reply clk snk = Running config p w) <->
  all_set env = true /\
  timezone (get_default (env "TIMEZONE"%string) "UTC"%string) <> None /\
  reply = Principal.
Proof.
  unfold main, Config_init, all_set, required. simpl.
  destruct (timezone _) as [tz|]; simpl.
  - destruct (env "CALDAV_URL"%string),
             (env "CALDAV_USERNAME"%string),
             (env "CALDAV_PASSWORD"%string),
             (env "TELEGRAM_BOT_TOKEN"%string),
             (env "TELEGRAM_CHAT_ID"%string); simpl;
      try (split; [intros (c & p & w & H); discriminate
                  |intros (H & _); discriminate]).
    destruct reply; simpl.
    + split; [intros _; repeat split; discriminate|eauto].
    + split; [intros (c & p & w & H); discriminate
             |intros (_ & _ & H); discriminate].
    + split; [intros (c & p & w & H); discriminate
             |intros (_ & _ & H); discriminate].
  - split; [intros (c & p & w & H); discriminate|].
    intros (_ & H & _). congruence.
Qed.

(** X22.  No word to the server without a full configuration: when one of
    the five required settings is missing (and the time zone is known), the
    process exits with status 1 and one error record, and the outcome does
    not depend on what the server would have answered to the login. *)
Theorem main_validates_before_login (env : Environ) (reply reply' : PrincipalReply)
    (clk : nat -> Z) (snk : nat -> bool) :
  all_set env = false ->
  timezone (get_default (env "TIMEZONE"%string) "UTC"%string) <> None ->
  main env reply clk snk = main env reply' clk snk /\
  exists record, main env reply clk snk = Exit 1 [record].
Proof.
  unfold main, Config_init, all_set, required. simpl.
  destruct (timezone _) as [tz|]; [|congruence]. simpl.
  destruct (env "CALDAV_URL"%string),
           (env "CALDAV_USERNAME"%string),
           (env "CALDAV_PASSWORD"%string),
           (env "TELEGRAM_BOT_TOKEN"%string),
           (env "TELEGRAM_CHAT_ID"%string); simpl;
    intros H _; try discriminate; split; eauto.
Qed.

(** What a refused login does: with a full configuration, an
    [AuthorizationError] of the server is logged as a warning and ends the
    process with status 1 after the error record; any other exception of
    the login escapes [__main__] uncaught.  In neither case does the
    worker start. *)
Theorem main_login_refused (env : Environ) (clk : nat -> Z) (snk : nat -> bool) :
  all_set env = true ->
  timezone (get_default (env "TIMEZONE"%string) "UTC"%string) <> None ->
  main env AuthorizationError clk snk =
    Exit 1 [Error_LoginFailed; Warning_Authorization] /\
  main env OtherError clk snk = Uncaught [].
Proof.
  unfold main, Config_init, all_set, required. simpl.
  destruct (timezone _) as [tz|]; [|congruence]. simpl.
  destruct (env "CALDAV_URL"%string),
           (env "CALDAV_USERNAME"%string),
           (env "CALDAV_PASSWORD"%string),
           (env "TELEGRAM_BOT_TOKEN"%string),
           (env "TELEGRAM_CHAT_ID"%string); simpl;
    intros H _; try discriminate; split; reflexivity.
Qed.
End Main.
End Startup.

(* ================================================================== *)
(** ** From start-up to the first cycle, and after the last one *)

Lemma drain_queue_suffix (w : World) :
  exists gone,
    sorted_reminders w = gone ++ sorted_reminders (fst (process_reminders w)).
Proof.
  rewrite process_reminders_unfold.
  set (w0 := set_reminder_task None w).
  set (fuel := S (length (sorted_reminders w))).
  destruct (while_sends_a_prefix fuel w0) as (sent & dropped & Hq & _).
  exists (sent ++ dropped).
  assert (sorted_reminders (fst ((while_process_next fuel ;;
                                  scheduleReminderTask) w0)) =
          sorted_reminders (fst (while_process_next fuel w0))) as ->.
  { unfold bind. destruct (while_process_next fuel w0) as [w1 [b|e]]; simpl;
      [|reflexivity].
    apply sorted_reminders_after_schedule. }
  rewrite <- app_assoc. exact Hq.
Qed.

Lemma drain_keeps_cals (w : World) :
  cals (fst (process_reminders w)) = cals w.
Proof.
  apply (preserves_process_reminders (fun w' => cals w' = cals w)).
  - split; intros; assumption.
  - intros q w' H. exact H.
  - intros n o w' H. exact H.
  - split; intros; assumption.
  - reflexivity.
Qed.

Lemma sync_tasks_none (w : World) : no_sync_scheduled w -> sync_tasks w = [].
Proof.
  unfold no_sync_scheduled, sync_tasks.
  induction (tasks w) as [|k ts IH]; intros H; [reflexivity|]. simpl.
  rewrite (H k (or_introl eq_refl)). apply IH.
  intros k' Hk'. apply H. right. exact Hk'.
Qed.

Section AfterTheLastCycle.
Context {cmpA : RichCmp VAlarm} {cmpE : RichCmp VEvent}.
Variable config : Config.

Lemma queue_shrinks_without_sync (w w' : World) :
  no_sync_scheduled w -> reachable config w w' ->
  exists gone, sorted_reminders w = gone ++ sorted_reminders w'.
Proof.
  intros H0 Hr. induction Hr as [|w1 w2 Hr IH Hs].
  - exists []. reflexivity.
  - destruct IH as [gone Hq].
    pose proof (cadence_never_resumes config w w1 H0 Hr) as Hn.
    destruct (no_sync_scheduled_step config w1 w2 Hn Hs)
      as (_ & k & _ & _ & ->).
    destruct (drain_queue_suffix (wake (tid k) w1)) as [gone' Hq'].
    simpl in Hq'. exists (gone ++ gone').
    rewrite <- app_assoc, <- Hq'. exact Hq.
Qed.

(** X23.  Once no sync cycle is pending, the worker never syncs again:
    in every state it reaches from there, still none is pending, the
    calendar list is the same, and the queue is what is left of the old
    one after removals from its front: no reminder is ever added. *)
Theorem dead_cadence_only_drains (w w' : World) :
  no_sync_scheduled w ->
  reachable config w w' ->
  no_sync_scheduled w' /\
  cals w' = cals w /\
  exists gone, sorted_reminders w = gone ++ sorted_reminders w'.
Proof.
  intros H0 Hr. induction Hr as [|w1 w2 Hr IH Hs].
  - split; [exact H0|]. split; [reflexivity|]. exists []. reflexivity.
  - destruct IH as (Hn & Hc & gone & Hq).
    destruct (no_sync_scheduled_step config w1 w2 Hn Hs)
      as (Hn2 & k & Hk & Ha & ->).
    split; [exact Hn2|]. split.
    + rewrite drain_keeps_cals. exact Hc.
    + destruct (drain_queue_suffix (wake (tid k) w1)) as [gone' Hq'].
      simpl in Hq'. exists (gone ++ gone').
      rewrite <- app_assoc, <- Hq'. exact Hq.
Qed.
End AfterTheLastCycle.

Section FirstCycle.
Variable timezone : string -> option (Z -> Z).
Variable int_of : string -> Z.

(** X24.  A deployment without [CALENDAR_IDS].  The start-up checks pass
    and the worker starts; but when the server lists a calendar, the first
    sync cycle raises [TypeError] at the filter, ends with
    [UnboundLocalError] and leaves no sync cycle pending, so that the
    worker never fetches an event: the queue stays empty for good. *)
Theorem start_without_calendar_ids (env : Startup.Environ)
    (clk : nat -> Z) (snk : nat -> bool) (gw : Gateway)
    (c : Calendar) (cs : list Calendar) :
  Startup.all_set env = true ->
  timezone (Startup.get_default (env "TIMEZONE"%string) "UTC"%string) <> None ->
  env "CALENDAR_IDS"%string = None ->
  principal gw = true ->
  principal_calendars gw = Ok (c :: cs) ->
  exists config,
    Startup.main timezone int_of env Startup.Principal clk snk =
      Startup.Running config true (initial_world clk snk) /\
    snd (sync config gw (wake 0 (initial_world clk snk))) =
      Raise UnboundLocalError /\
    forall w', reachable config
                 (fst (sync config gw (wake 0 (initial_world clk snk)))) w' ->
               sync_tasks w' = [] /\ sorted_reminders w' = [].
Proof.
  intros Hall Htz Hids Hp Hcs.
  destruct (timezone _) as [tz|] eqn:Etz; [clear Htz|congruence].
  set (config :=
    {| CALENDAR_IDS := Config_CALENDAR_IDS (env "CALENDAR_IDS"%string);
       SYNC_INTERVAL_IN_SEC :=
         match env "SYNC_INTERVAL_IN_SEC"%string with
         | Some text => int_of text
         | None => 1800
         end;
       FETCH_EVENT_WINDOW_IN_DAYS :=
         match env "FETCH_EVENT_WINDOW_IN_DAYS"%string with
         | Some text => int_of text
         | None => 5
         end;
       TIMEZONE_localize := tz |}).
  exists config. split.
  { unfold Startup.main, Startup.Config_init. rewrite Etz.
    unfold Startup.all_set, Startup.required in Hall. simpl in Hall.
    simpl.
    destruct (env "CALDAV_URL"%string),
             (env "CALDAV_USERNAME"%string),
             (env "CALDAV_PASSWORD"%string),
             (env "TELEGRAM_BOT_TOKEN"%string),
             (env "TELEGRAM_CHAT_ID"%string); simpl in *;
      try discriminate. reflexivity. }
  set (w0 := wake 0 (initial_world clk snk)).
  assert (exists w1, cycle_fetch config gw w0 = (w1, Raise TypeError)) as [w1 Hf].
  { unfold cycle_fetch, sync_fetch, ensure_cals, fetch_calendars.
    unfold bind, get, lift, modify, ret. simpl. rewrite Hp, Hcs. simpl.
    unfold id_in_CALENDAR_IDS. simpl. rewrite Hids. simpl. eauto. }
  pose proof (cycle_fetch_scheduler_state config gw w0) as Hw.
  rewrite Hf in Hw. unfold scheduler_state in Hw. simpl in Hw.
  injection Hw as Hq _ Hts _ _.
  rewrite (sync_fetch_raised config gw w0 w1 TypeError Hf). simpl.
  split; [reflexivity|].
  intros w' Hr.
  assert (no_sync_scheduled
            (set_log (Error_ExceptionOccured TypeError :: log w1) w1)) as Hn.
  { intros k Hk. simpl in Hk. rewrite Hts in Hk.
    destruct Hk as [<-|[]]. reflexivity. }
  split.
  - apply sync_tasks_none. apply (cadence_never_resumes config _ _ Hn Hr).
  - destruct (queue_shrinks_without_sync config _ _ Hn Hr) as [gone Hg].
    simpl in Hg. rewrite Hq in Hg.
    destruct gone; [symmetry; exact Hg|discriminate].
Qed.
End FirstCycle.

(* ================================================================== *)
(** ** These properties on the scenarios *)

Module Cases.
(** The store of the scenarios with another account behind it: it differs
    from [Scenario.store] in everything but the answers to searches. *)
Definition other_account (events : result (list VEvent)) : Gateway :=
  {| principal := false;
     principal_calendars := Raise DAVError;
     calendar_search := fun _ _ _ => events |}.

(** A second calendar, which is not subscribed. *)
Definition home : Calendar :=
  {| cal_id := "home"; cal_name := "Home"; cal_url := "/dav/home/" |}.

(** A store that answers for [Scenario.work] as [Scenario.store] does and
    fails for every other calendar. *)
Definition work_only (events : result (list VEvent)) : Gateway :=
  {| principal := true;
     principal_calendars := Ok [Scenario.work; home];
     calendar_search := fun url _ _ =>
       if String.eqb url "/dav/work/" then events else Raise DAVError |}.

Definition quiet : World :=
  Scenario.world 30600 [] (Scenario.always true).

(** The reminders of [Scenario.two_alarms] in the order of their fire
    instants, 10 and 12. *)
Definition call_reminders : list Reminder :=
  Eval vm_compute in
    match snd (extract_reminders [Scenario.two_alarms]
                 (Scenario.at_reading_0 (fun _ => 10))) with
    | Ok out => out
    | Raise _ => []
    end.

(** The task [run] creates for the first sync cycle of a fresh worker. *)
Definition first_task : Task :=
  {| tid := 0; deadline := 30600; handler := HSync; tstate := Pending |}.

Definition fresh : World :=
  initial_world (fun _ => 30600) (Scenario.always true).

(** The world after the first sync cycle of a fresh worker against a store
    that holds "Standup". *)
Definition after_first_cycle : World :=
  fst (sync Scenario.config (Scenario.store (Ok [Scenario.standup]))
         (wake (tid first_task) fresh)).

Lemma after_first_cycle_reachable :
  reachable Scenario.config fresh after_first_cycle.
Proof.
  apply (reach_step Scenario.config fresh fresh after_first_cycle
           (reach_refl _ _)).
  unfold after_first_cycle.
  apply step_sync.
  - left. reflexivity.
  - reflexivity.
Defined.

Lemma quiet_single_flight (now : Z) (q : list Reminder) (sends : nat -> bool) :
  single_flight (Scenario.world now q sends).
Proof.
  split; [reflexivity|]. intros k [<-|[]] Ha. discriminate.
Defined.

(** An environment with the five required settings and nothing else. *)
Definition minimal_env : Startup.Environ :=
  fun key => if existsb (String.eqb key) Startup.required
             then Some "x"%string else None.

Definition utc_only : string -> option (Z -> Z) :=
  fun name => if String.eqb name "UTC" then Some (fun wall => wall) else None.
End Cases.

Lemma extract_keeps_exactly_the_future_witness :
  sorted_by_dt Cases.call_reminders /\
  map dt Cases.call_reminders = [10; 12].
Proof.
  split; [|reflexivity].
  destruct (extract_keeps_exactly_the_future [Scenario.two_alarms]
              (Scenario.at_reading_0 (fun _ => 10))
              (fst (extract_reminders [Scenario.two_alarms]
                      (Scenario.at_reading_0 (fun _ => 10))))
              10 Cases.call_reminders) as (Hs & _ & _).
  - intros i. reflexivity.
  - vm_compute. reflexivity.
  - exact Hs.
Defined.

Lemma extract_returns_sorted_survivors_witness :
  sorted_by_dt Cases.call_reminders /\
  Forall (fun r => 10 <= dt r) Cases.call_reminders.
Proof.
  destruct (extract_returns_sorted_survivors [Scenario.two_alarms]
              (Scenario.at_reading_0 (fun _ => 10))
              (fst (extract_reminders [Scenario.two_alarms]
                      (Scenario.at_reading_0 (fun _ => 10))))
              Cases.call_reminders) as (Hs & Hf & _).
  - intros i j _. simpl. lia.
  - vm_compute. reflexivity.
  - split; [exact Hs|exact Hf].
Defined.

(** Both reminders of [Scenario.two_alarms] pass the time test at 10: the
    instants that must differ are 12 and 10. *)
Lemma extract_returns_when_instants_differ_witness :
  map dt (surviving (fun _ => 10) 0 (candidates [Scenario.two_alarms])) =
    [12; 10] /\
  exists out,
    extract_reminders [Scenario.two_alarms]
      (Scenario.at_reading_0 (fun _ => 10)) =
    (set_reads 2 (Scenario.at_reading_0 (fun _ => 10)), Ok out) /\
    sorted_by_dt out.
Proof.
  split; [reflexivity|].
  apply (extract_returns_when_instants_differ [Scenario.two_alarms]
           (Scenario.at_reading_0 (fun _ => 10))).
  change (NoDup [12; 10]).
  constructor; [intros [H|[]]; discriminate H|].
  constructor; [intros []|constructor].
Defined.

Lemma fetched_reminders_fire_at_start_plus_trigger_witness :
  Forall (fun e =>
    exists start,
      ve_dtstart (ev_vevent e) = DAware start /\
      Forall (fun r =>
        vevent r = ev_vevent e /\
        In (valarm r) (ve_components (ev_vevent e)) /\
        dt r = start + va_trigger (valarm r)) (reminders e))
    [make_event Scenario.config Scenario.standup].
Proof.
  apply (fetched_reminders_fire_at_start_plus_trigger Scenario.config
           (Scenario.store (Ok [Scenario.standup])) [Scenario.work]
           Cases.quiet
           (fst (fetch_events Scenario.config
                   (Scenario.store (Ok [Scenario.standup])) [Scenario.work]
                   Cases.quiet))).
  vm_compute. reflexivity.
Defined.

Lemma fetch_events_concatenates_witness :
  snd (fetch_events Scenario.config
         (Scenario.store (Ok [Scenario.review; Scenario.lunch]))
         [Scenario.work; Cases.home] Cases.quiet) =
  Ok (map (make_event Scenario.config)
        [Scenario.review; Scenario.lunch; Scenario.review; Scenario.lunch]).
Proof.
  rewrite (fetch_events_concatenates Scenario.config
             (Scenario.store (Ok [Scenario.review; Scenario.lunch]))
             (fun _ => [Scenario.review; Scenario.lunch])
             [Scenario.work; Cases.home] Cases.quiet).
  - reflexivity.
  - intros c _ s t. reflexivity.
Defined.

Lemma fetch_events_fails_as_a_whole_witness :
  fetch_events Scenario.config (Cases.work_only (Ok [Scenario.standup]))
    [Scenario.work; Cases.home; Scenario.work] Cases.quiet =
  (set_reads 5 Cases.quiet, Raise DAVError).
Proof.
  apply (fetch_events_fails_as_a_whole Scenario.config
           (Cases.work_only (Ok [Scenario.standup])) DAVError
           [Scenario.work] Cases.home [Scenario.work] Cases.quiet).
  - intros c' [<-|[]] s t. exists [Scenario.standup]. reflexivity.
  - intros s t. reflexivity.
Defined.

Lemma fetch_events_searches_only_the_windows_witness :
  fetch_events Scenario.config (Scenario.store (Ok [Scenario.standup]))
    [Scenario.work] Cases.quiet =
  fetch_events Scenario.config (Cases.work_only (Ok [Scenario.standup]))
    [Scenario.work] Cases.quiet.
Proof.
  apply (fetch_events_searches_only_the_windows Scenario.config
           (Scenario.store (Ok [Scenario.standup]))
           (Cases.work_only (Ok [Scenario.standup]))
           [Scenario.work] Cases.quiet).
  intros i c Hi. destruct i as [|i]; simpl in Hi.
  - injection Hi as <-. reflexivity.
  - destruct i; discriminate.
Defined.

Lemma sync_without_principal_witness :
  snd (sync Scenario.config (Cases.other_account (Ok []))
         (wake 0 Cases.fresh)) = Raise UnboundLocalError /\
  cals (fst (sync Scenario.config (Cases.other_account (Ok []))
               (wake 0 Cases.fresh))) = None.
Proof.
  destruct (sync_without_principal Scenario.config
              (Cases.other_account (Ok [])) (wake 0 Cases.fresh))
    as (Hr & _ & Hc & _).
  - reflexivity.
  - reflexivity.
  - split; [exact Hr|exact Hc].
Defined.

Lemma sync_uses_cached_calendars_witness :
  sync Scenario.config (Scenario.store (Ok [Scenario.standup])) Cases.quiet =
  sync Scenario.config (Cases.other_account (Ok [Scenario.standup])) Cases.quiet.
Proof.
  apply (sync_uses_cached_calendars Scenario.config
           (Scenario.store (Ok [Scenario.standup]))
           (Cases.other_account (Ok [Scenario.standup]))
           Cases.quiet [Scenario.work]).
  - reflexivity.
  - intros url s t. reflexivity.
Defined.

Lemma at_most_one_sync_pending_witness :
  (length (sync_tasks Cases.after_first_cycle) <= 1)%nat.
Proof.
  apply (at_most_one_sync_pending Scenario.config (fun _ => 30600)
           (Scenario.always true) Cases.after_first_cycle).
  exact Cases.after_first_cycle_reachable.
Defined.



Lemma reschedule_twice_witness :
  let w := Scenario.world 1 [Scenario.r1; Scenario.r2]
             (Scenario.always true) in
  timers (fst (scheduleReminderTask (fst (scheduleReminderTask w)))) =
  [wake_timer 2 Scenario.r1].
Proof.
  intros w.
  destruct (reschedule_twice w) as (_ & Ht & _).
  - apply Cases.quiet_single_flight.
  - apply Cases.quiet_single_flight.
  - exact Ht.
Defined.

Lemma sync_searches_only_subscribed_witness :
  let w := set_cals (Some [Scenario.work; Cases.home]) Cases.quiet in
  sync Scenario.config (Scenario.store (Ok [Scenario.standup])) w =
  sync Scenario.config (Cases.work_only (Ok [Scenario.standup])) w.
Proof.
  intros w.
  destruct (sync_searches_only_subscribed Scenario.config
              (Scenario.store (Ok [Scenario.standup]))
              (Cases.work_only (Ok [Scenario.standup])) w
              [Scenario.work; Cases.home] ["work"%string]) as [_ H].
  - reflexivity.
  - reflexivity.
  - intros c [<-|[<-|[]]] Hsub s t; [reflexivity|discriminate].
  - exact H.
Defined.

Lemma main_validates_before_login_witness :
  Startup.main Cases.utc_only (fun _ => 0) (fun _ => None) Startup.Principal
    (fun _ => 0) (Scenario.always true) =
  Startup.main Cases.utc_only (fun _ => 0) (fun _ => None) Startup.OtherError
    (fun _ => 0) (Scenario.always true).
Proof.
  destruct (Startup.main_validates_before_login Cases.utc_only (fun _ => 0)
              (fun _ => None) Startup.Principal Startup.OtherError
              (fun _ => 0) (Scenario.always true)) as [H _].
  - reflexivity.
  - discriminate.
  - exact H.
Defined.

Lemma dead_cadence_only_drains_witness :
  let w := Scenario.arm
             (Scenario.world 2 [Scenario.r1; Scenario.r2; Scenario.r3]
                (Scenario.always true)) in
  sync_tasks (fst (process_reminders (wake 1 w))) = [] /\
  cals (fst (process_reminders (wake 1 w))) = Some [Scenario.work].
Proof.
  intros w.
  destruct (dead_cadence_only_drains Scenario.config w
              (fst (process_reminders (wake (tid (wake_timer 1 Scenario.r1)) w))))
    as (Hn & Hc & _).
  - intros k [<-|[<-|[]]]; reflexivity.
  - apply (reach_step Scenario.config w w _ (reach_refl _ _)).
    apply step_fire.
    + right. left. reflexivity.
    + reflexivity.
  - split; [apply sync_tasks_none; exact Hn|exact Hc].
Defined.

Lemma start_without_calendar_ids_witness :
  exists config,
    Startup.main Cases.utc_only (fun _ => 0) Cases.minimal_env
      Startup.Principal (fun _ => 30600) (Scenario.always true) =
    Startup.Running config true Cases.fresh /\
    snd (sync config (Scenario.store (Ok [Scenario.standup]))
           (wake 0 Cases.fresh)) = Raise UnboundLocalError.
Proof.
  destruct (start_without_calendar_ids Cases.utc_only (fun _ => 0)
              Cases.minimal_env (fun _ => 30600) (Scenario.always true)
              (Scenario.store (Ok [Scenario.standup])) Scenario.work [])
    as (config & Hm & Hs & _).
  - reflexivity.
  - discriminate.
  - reflexivity.
  - reflexivity.
  - reflexivity.
  - exists config. split; [exact Hm|exact Hs].
Defined.



Module Repeat.
(** "Standup" as the next search delivers it: the same event of the store,
    parsed into an event object 101 and an alarm object 102. *)
Definition standup_again : VEvent :=
  Scenario.event 101 "Standup" 32400 (-900).

Definition standup_again_reminder : Reminder :=
  Scenario.reminder 101 "Standup" 32400 (-900).

(** The worker at the start of its second cycle: the first cycle found
    "Standup" (objects 1 and 2), queued its reminder and armed timer 1;
    now the sleep of sync task 2 is over. *)
Definition second_start : World :=
  wake 2 (fst (sync Scenario.config (Scenario.store (Ok [Scenario.standup]))
                 Cases.quiet)).

Definition again : Gateway := Scenario.store (Ok [standup_again]).
End Repeat.

Lemma sync_reparsed_list_rearms_timer_witness :
  let w := Repeat.second_start in
  let w' := fst (sync Scenario.config Repeat.again w) in
  sorted_reminders w = [Scenario.standup_reminder] /\
  reminder_task w = Some 1%nat /\
  timers w = [wake_timer 1 Scenario.standup_reminder] /\
  value_equal [Repeat.standup_again_reminder] (sorted_reminders w) /\
  sorted_reminders w' = [Repeat.standup_again_reminder] /\
  reminder_task w' = Some 3%nat /\
  In (with_tstate Cancelled (wake_timer 1 Scenario.standup_reminder))
     (tasks w') /\
  timers w' = [wake_timer 3 Repeat.standup_again_reminder] /\
  outbox w' = [].
Proof.
  intros w w'.
  assert (sorted_reminders w = [Scenario.standup_reminder]) as Eq
    by (vm_compute; reflexivity).
  assert (timers w = [wake_timer 1 Scenario.standup_reminder]) as Et
    by (vm_compute; reflexivity).
  assert (value_equal [Repeat.standup_again_reminder] (sorted_reminders w))
    as Hv by (rewrite Eq; split; reflexivity).
  destruct (sync_reparsed_list_rearms_timer Scenario.config Repeat.again w
              (fst (cycle_fetch Scenario.config Repeat.again w))
              (fst (extract_reminders
                      [make_event Scenario.config Repeat.standup_again]
                      (fst (cycle_fetch Scenario.config Repeat.again w))))
              [make_event Scenario.config Repeat.standup_again]
              [Repeat.standup_again_reminder])
    as (_ & _ & Hq & Hh & Hc & (first & rest & old & rest' & Hn & _ & _ & Ht)
        & _ & Ho).
  - apply wake_single_flight.
    apply (preserves_sync Scenario.config). apply Cases.quiet_single_flight.
  - vm_compute. reflexivity.
  - vm_compute. reflexivity.
  - discriminate.
  - exact Hv.
  - rewrite Eq. intros r r' [<-|[]] [<-|[]]. reflexivity.
  - injection Hn as <- _. unfold w'.
    split; [exact Eq|]. split; [vm_compute; reflexivity|].
    split; [exact Et|]. split; [exact Hv|]. split; [exact Hq|].
    split; [rewrite Hh; vm_compute; reflexivity|].
    split; [apply Hc; rewrite Et; left; reflexivity|].
    split; [rewrite Ht; vm_compute; reflexivity|].
    rewrite Ho. vm_compute. reflexivity.
Defined.
